(** * orderedobject: an insertion-ordered JSON object

    A verification development for the Go package [orderedobject]
    (object.go).  The package stores its entries in a Go slice and mutates
    the backing array in place, so the model keeps an explicit heap of
    backing arrays and slice headers (pointer, length, capacity) instead
    of immutable lists.  The streaming codec is modelled over token
    sequences; the byte-level tokenizer and the generic value marshaller
    are external to the package and appear as interfaces. *)

From stdpp Require Import gmap strings list.
From Stdlib Require Import ZArith Ascii.

Open Scope Z_scope.

(** ** Outcomes of Go code that may raise a run-time panic *)

Inductive outcome (A : Type) : Type :=
| Done (a : A)
| Panic (msg : string).
Arguments Done {A} a.
Arguments Panic {A} msg.

Definition obind {A B : Type} (x : outcome A) (f : A -> outcome B) : outcome B :=
  match x with
  | Done a => f a
  | Panic msg => Panic msg
  end.

Notation "x <-! e ;; k" := (obind e (fun x => k))
  (at level 100, e at next level, right associativity).

(** ** Go slices over a heap of backing arrays *)

Definition loc := positive.

(** A slice header.  [ptr = None] is the nil slice.  Every slice this
    package keeps starts at the base of its array, so no offset is stored;
    the expression [s[i:]] only ever occurs as the source of a copy and is
    modelled by the list of elements it denotes. *)
Record slice : Type := mkSlice { ptr : option loc; len : nat; cap : nat }.

Module Slice.
Section Ops.
Context {A : Type}.
Variable zero : A.
(** the runtime's capacity growth policy; [append] only relies on the new
    array being large enough, which [Nat.max] enforces below *)
Variable growslice_cap : nat -> nat -> nat.

Abbreviation heap := (gmap loc (list A)).

(** the backing array of a slice *)
Definition backing (h : heap) (s : slice) : list A :=
  match ptr s with
  | Some l => default [] (h !! l)
  | None => []
  end.

(** the elements [s[0], ..., s[len-1]] *)
Definition elems (h : heap) (s : slice) : list A :=
  take (len s) (backing h s).

(** memory safety of a header: the array exists, has [cap] cells, and the
    length does not exceed the capacity *)
Definition wf (h : heap) (s : slice) : Prop :=
  (len s <= cap s)%nat /\
  match ptr s with
  | Some l => length <$> (h !! l) = Some (cap s)
  | None => cap s = 0%nat
  end.

Definition alloc (h : heap) (arr : list A) : heap * loc :=
  let l := fresh (dom h) in (<[l := arr]> h, l).

(** [make([]A, n, c)].  The runtime's [makeslice] refuses a capacity that
    is negative, below the length, or beyond what the allocator grants for
    the element type ([maxAlloc] divided by the element size, here
    [bound], in elements); it reports the length instead when the length
    alone is out of range.  Otherwise it allocates [c] zeroed cells: an
    allocation within the bound is assumed to succeed.  [bound] is [None]
    where the length asked for is that of a live slice whose elements are
    no smaller than [A]: [makeslice] has granted that many before. *)
Definition beyond (bound : option Z) (k : Z) : bool :=
  match bound with
  | Some b => b <? k
  | None => false
  end.

Definition make (bound : option Z) (h : heap) (n c : Z) : outcome (heap * slice) :=
  if (n <? 0) || beyond bound n then Panic "makeslice: len out of range"
  else if (c <? n) || beyond bound c then Panic "makeslice: cap out of range"
  else
    let '(h', l) := alloc h (replicate (Z.to_nat c) zero) in
    Done (h', mkSlice (Some l) (Z.to_nat n) (Z.to_nat c)).

(** [s[i]] *)
Definition index (h : heap) (s : slice) (i : Z) : outcome A :=
  if (0 <=? i) && (i <? Z.of_nat (len s)) then
    Done (nth (Z.to_nat i) (backing h s) zero)
  else Panic "index out of range".

(** [s[i] = x] *)
Definition store (h : heap) (s : slice) (i : Z) (x : A) : outcome heap :=
  if (0 <=? i) && (i <? Z.of_nat (len s)) then
    match ptr s with
    | Some l => Done (<[l := <[Z.to_nat i := x]> (backing h s)]> h)
    | None => Panic "nil dereference"
    end
  else Panic "index out of range".

(** [s[:j]] *)
Definition slice_to (s : slice) (j : Z) : outcome slice :=
  if (0 <=? j) && (j <=? Z.of_nat (cap s)) then
    Done (mkSlice (ptr s) (Z.to_nat j) (cap s))
  else Panic "slice bounds out of range".

(** the elements denoted by [s[i:]] *)
Definition elems_from (h : heap) (s : slice) (i : Z) : outcome (list A) :=
  if (0 <=? i) && (i <=? Z.of_nat (len s)) then
    Done (drop (Z.to_nat i) (elems h s))
  else Panic "slice bounds out of range".

(** [append(s, xs...)]: writes in place when the capacity suffices, else
    moves the elements to a fresh, larger array *)
Definition append (h : heap) (s : slice) (xs : list A) : heap * slice :=
  let n := (len s + length xs)%nat in
  if (n <=? cap s)%nat then
    match ptr s with
    | Some l =>
        let arr := backing h s in
        (<[l := take (len s) arr ++ xs ++ drop n arr]> h,
         mkSlice (Some l) n (cap s))
    | None => (h, mkSlice None n (cap s))
    end
  else
    let c := Nat.max n (growslice_cap n (cap s)) in
    let '(h', l) := alloc h (elems h s ++ xs ++ replicate (c - n) zero) in
    (h', mkSlice (Some l) n c).

(** the loop [for i, e := range es { s[i] = f(e) }] *)
Fixpoint storeEach {B : Type} (f : B -> A) (h : heap) (s : slice) (i : Z)
  (es : list B) : outcome heap :=
  match es with
  | [] => Done h
  | e :: rest =>
      h' <-! store h s i (f e) ;;
      storeEach f h' s (i + 1) rest
  end.

(** what a caller may do to a slice it holds: assign an element or
    append; a write that panics ends the sequence *)
Inductive write : Type :=
| WStore (i : Z) (x : A)
| WAppend (xs : list A).

Fixpoint applyWrites (h : heap) (s : slice) (ws : list write) : heap * slice :=
  match ws with
  | [] => (h, s)
  | WStore i x :: rest =>
      match store h s i x with
      | Done h' => applyWrites h' s rest
      | Panic _ => (h, s)
      end
  | WAppend xs :: rest =>
      let p := append h s xs in applyWrites p.1 p.2 rest
  end.

(** [copy(dst, src)] where [src] is given by its elements *)
Definition copy (h : heap) (dst : slice) (src : list A) : heap :=
  match ptr dst with
  | Some l =>
      let arr := backing h dst in
      let k := Nat.min (len dst) (length src) in
      <[l := take k src ++ drop k arr]> h
  | None => h
  end.

End Ops.
End Slice.

(** ** The token interface of the external [jsontext] package

    The package under verification talks to its JSON dependency only by
    whole tokens.  An encoder is an append-only token sink that may refuse
    a token; a decoder yields the tokens of its input one at a time and
    reports an error once they run out. *)

Definition ExtError := string.

Module jsontext.

(** a token kind is one byte: an opening or closing brace or bracket, the
    double quote (byte 34) for strings, the digit 0 for numbers, the
    letters t, f and n for the literals, and the zero byte for no token *)
Definition Kind := ascii.

Inductive Token : Type :=
| Null
| Bool (b : bool)
| String (s : string)
| Number (lit : string)
| BeginObject
| EndObject
| BeginArray
| EndArray.

Definition invalidKind : Kind := "000"%char.

Definition TokenKind (t : Token) : Kind :=
  match t with
  | Null => "n"
  | Bool true => "t"
  | Bool false => "f"
  | String _ => "034"
  | Number _ => "0"
  | BeginObject => "{"
  | EndObject => "}"
  | BeginArray => "["
  | EndArray => "]"
  end%char.

(** [tok.String()] on a string token is its payload *)
Definition TokenString (t : Token) : string :=
  match t with
  | String s => s
  | Number lit => lit
  | Null => "null"
  | Bool true => "true"
  | Bool false => "false"
  | BeginObject => "{"
  | EndObject => "}"
  | BeginArray => "["
  | EndArray => "]"
  end.

(** An encoder: the tokens written so far and the validation the encoder
    applies to the next one ([None] accepts). *)
Record Encoder : Type := mkEncoder {
  validate : list Token -> Token -> option ExtError;
  written : list Token
}.

Definition emit (enc : Encoder) (ts : list Token) : Encoder :=
  mkEncoder (validate enc) (written enc ++ ts).

Definition WriteToken (enc : Encoder) (t : Token) : Encoder * option ExtError :=
  match validate enc (written enc) t with
  | None => (emit enc [t], None)
  | Some e => (enc, Some e)
  end.

(** A decoder: the tokens still to be read, the error reported after the
    last of them, and the kind [PeekKind] answers at that point. *)
Record Decoder : Type := mkDecoder {
  input : list Token;
  stopErr : ExtError;
  stopKind : Kind
}.

Definition advance (n : nat) (dec : Decoder) : Decoder :=
  mkDecoder (drop n (input dec)) (stopErr dec) (stopKind dec).

Definition ReadToken (dec : Decoder) : Decoder * (ExtError + Token) :=
  match input dec with
  | t :: _ => (advance 1 dec, inr t)
  | [] => (dec, inl (stopErr dec))
  end.

Definition PeekKind (dec : Decoder) : Kind :=
  match input dec with
  | t :: _ => TokenKind t
  | [] => stopKind dec
  end.

End jsontext.

(** ** The [json] package: options and the generic value codec *)

Module json.

Record Options : Type := mkOptions { Deterministic : bool }.

End json.

(** What the package needs to know of its value type [V]: the zero value,
    the dynamic test for the [OrderedMarshaler] interface, and the generic
    marshaller and unmarshaller of the [json] package at that type.  A
    marshaller answers with the tokens it appended to the encoder and its
    error, if any; the unmarshaller with the value and the number of tokens
    it consumed. *)
Class GoValue (V : Type) : Type := {
  zeroValue : V;
  asOrderedMarshaler :
    V -> option (jsontext.Encoder -> list jsontext.Token * option ExtError);
  MarshalEncode :
    jsontext.Encoder -> V -> json.Options -> list jsontext.Token * option ExtError;
  UnmarshalDecode : jsontext.Decoder -> ExtError + (V * nat)
}.

(** the growth policy of the runtime's [growslice], and the largest
    capacity [makeslice] grants a slice of entries: [maxAlloc] divided by
    the size of an [Entry[V]] *)
Class GoRuntime : Type := {
  growslice_cap : nat -> nat -> nat;
  makeslice_max : N
}.

(** ** The package *)

Inductive error : Type :=
| ErrExpectedObjectStart (got : jsontext.Kind)
| ErrExpectedStringKey (got : jsontext.Kind)
| Upstream (e : ExtError).

Record Entry (V : Type) : Type := mkEntry { Key : string; Value : V }.
Arguments mkEntry {V} Key Value.
Arguments Key {V} e.
Arguments Value {V} e.

Record Object : Type := mkObject { entries : slice }.

Section Container.
Context {V : Type} `{GoValue V} `{GoRuntime}.

Abbreviation heap := (gmap loc (list (Entry V))).

Definition zeroEntry : Entry V := mkEntry "" zeroValue.

Definition s_make := Slice.make zeroEntry None.
Definition s_index := Slice.index zeroEntry.
Definition s_append := Slice.append zeroEntry growslice_cap.

(** the entry sequence of an object in a heap *)
Definition contents (h : heap) (o : Object) : list (Entry V) :=
  Slice.elems h (entries o).

Definition NewObject (h : heap) (capacity : list Z) : outcome (heap * Object) :=
  let cap := match capacity with c :: _ => c | [] => 0 end in
  p <-! Slice.make zeroEntry (Some (Z.of_N makeslice_max)) h 0 cap ;;
  Done (p.1, mkObject p.2).

Fixpoint findKeyIndex_from (i : Z) (es : list (Entry V)) (key : string) : Z :=
  match es with
  | [] => -1
  | entry :: rest =>
      if String.eqb (Key entry) key then i
      else findKeyIndex_from (i + 1) rest key
  end.

Definition findKeyIndex (h : heap) (o : Object) (key : string) : Z :=
  findKeyIndex_from 0 (contents h o) key.

Definition Set_ (h : heap) (o : Object) (key : string) (value : V)
  : outcome (heap * Object) :=
  let idx := findKeyIndex h o key in
  if 0 <=? idx then
    cell <-! s_index h (entries o) idx ;;
    h' <-! Slice.store h (entries o) idx (mkEntry (Key cell) value) ;;
    Done (h', o)
  else
    let p := s_append h (entries o) [mkEntry key value] in
    Done (p.1, mkObject p.2).

Definition Get (h : heap) (o : Object) (key : string) : outcome (V * bool) :=
  let idx := findKeyIndex h o key in
  if 0 <=? idx then
    cell <-! s_index h (entries o) idx ;;
    Done (Value cell, true)
  else Done (zeroValue, false).

Definition Has (h : heap) (o : Object) (key : string) : bool :=
  0 <=? findKeyIndex h o key.

Definition Delete (h : heap) (o : Object) (key : string) : outcome (heap * Object) :=
  let idx := findKeyIndex h o key in
  if 0 <=? idx then
    dst <-! Slice.slice_to (entries o) idx ;;
    src <-! Slice.elems_from h (entries o) (idx + 1) ;;
    let p := s_append h dst src in
    Done (p.1, mkObject p.2)
  else Done (h, o).

Definition Length (o : Object) : Z := Z.of_nat (len (entries o)).

(** [Keys] and [Values] fill arrays of their own element type, which live
    in heaps of their own: Go's typing keeps a [[]string] from aliasing a
    [[]Entry[V]]. *)
Definition Keys (h : heap) (o : Object) (hk : gmap loc (list string))
  : outcome (gmap loc (list string) * slice) :=
  let n := Z.of_nat (len (entries o)) in
  p <-! Slice.make EmptyString None hk n n ;;
  hk' <-! Slice.storeEach Key p.1 p.2 0 (contents h o) ;;
  Done (hk', p.2).

Definition Values (h : heap) (o : Object) (hv : gmap loc (list V))
  : outcome (gmap loc (list V) * slice) :=
  let n := Z.of_nat (len (entries o)) in
  p <-! Slice.make zeroValue None hv n n ;;
  hv' <-! Slice.storeEach Value p.1 p.2 0 (contents h o) ;;
  Done (hv', p.2).

Definition Entries (h : heap) (o : Object) : outcome (heap * slice) :=
  let n := Z.of_nat (len (entries o)) in
  p <-! s_make h n n ;;
  Done (Slice.copy p.1 p.2 (contents p.1 o), p.2).

Definition Clone (h : heap) (o : Object) : outcome (heap * Object) :=
  let n := Z.of_nat (len (entries o)) in
  p <-! s_make h n n ;;
  Done (Slice.copy p.1 p.2 (contents p.1 o), mkObject p.2).

(** *** Encoding *)

(** the value dispatch of [MarshalJSONTo]: the value's own method when it
    implements [OrderedMarshaler], else [json.MarshalEncode] with
    [json.Deterministic(true)] *)
Definition marshalValue (value : V) (enc : jsontext.Encoder)
  : jsontext.Encoder * option ExtError :=
  match asOrderedMarshaler value with
  | Some marshalTo =>
      let r := marshalTo enc in (jsontext.emit enc r.1, r.2)
  | None =>
      let r := MarshalEncode enc value (json.mkOptions true) in
      (jsontext.emit enc r.1, r.2)
  end.

Fixpoint marshalEntries (es : list (Entry V)) (enc : jsontext.Encoder)
  : jsontext.Encoder * option ExtError :=
  match es with
  | [] => (enc, None)
  | entry :: rest =>
      match jsontext.WriteToken enc (jsontext.String (Key entry)) with
      | (enc1, Some err) => (enc1, Some err)
      | (enc1, None) =>
          match marshalValue (Value entry) enc1 with
          | (enc2, Some err) => (enc2, Some err)
          | (enc2, None) => marshalEntries rest enc2
          end
      end
  end.

Definition MarshalJSONTo (h : heap) (o : Object) (enc : jsontext.Encoder)
  : jsontext.Encoder * option ExtError :=
  match jsontext.WriteToken enc jsontext.BeginObject with
  | (enc1, Some err) => (enc1, Some err)
  | (enc1, None) =>
      match marshalEntries (contents h o) enc1 with
      | (enc2, Some err) => (enc2, Some err)
      | (enc2, None) => jsontext.WriteToken enc2 jsontext.EndObject
      end
  end.

(** *** Decoding *)

(** the loop [for dec.PeekKind() != '}' { ... }]; every round that does
    not return consumes the key token, so [fuel] above the number of
    pending tokens is never exhausted (see [decodeEntries_fuel]) *)
Fixpoint decodeEntries (fuel : nat) (h : heap) (o : Object) (dec : jsontext.Decoder)
  : option (heap * Object * jsontext.Decoder * option error) :=
  match fuel with
  | O => None
  | S fuel' =>
      if Ascii.eqb (jsontext.PeekKind dec) "}" then Some (h, o, dec, None)
      else
        match jsontext.ReadToken dec with
        | (dec1, inl err) => Some (h, o, dec1, Some (Upstream err))
        | (dec1, inr tok) =>
            if negb (Ascii.eqb (jsontext.TokenKind tok) "034") then
              Some (h, o, dec1, Some (ErrExpectedStringKey (jsontext.TokenKind tok)))
            else
              let key := jsontext.TokenString tok in
              match UnmarshalDecode dec1 with
              | inl err => Some (h, o, dec1, Some (Upstream err))
              | inr (value, n) =>
                  let p := s_append h (entries o) [mkEntry key value] in
                  decodeEntries fuel' p.1 (mkObject p.2) (jsontext.advance n dec1)
              end
        end
  end.

(** [object.entries[:0]]: bounds [0 <= 0 <= cap] always hold *)
Definition resetEntries (o : Object) : Object :=
  mkObject (mkSlice (ptr (entries o)) 0 (cap (entries o))).

Definition UnmarshalJSONFrom (h : heap) (o : Object) (dec : jsontext.Decoder)
  : option (heap * Object * jsontext.Decoder * option error) :=
  let o0 := resetEntries o in
  match jsontext.ReadToken dec with
  | (dec1, inl err) => Some (h, o0, dec1, Some (Upstream err))
  | (dec1, inr tok) =>
      if negb (Ascii.eqb (jsontext.TokenKind tok) "{") then
        Some (h, o0, dec1, Some (ErrExpectedObjectStart (jsontext.TokenKind tok)))
      else
        match decodeEntries (S (length (jsontext.input dec1))) h o0 dec1 with
        | Some (h', o', dec2, None) =>
            match jsontext.ReadToken dec2 with
            | (dec3, inl err) => Some (h', o', dec3, Some (Upstream err))
            | (dec3, inr _) => Some (h', o', dec3, None)
            end
        | r => r
        end
  end.

(** *** Sequences of mutations *)

Inductive mutation : Type :=
| MSet (key : string) (value : V)
| MDelete (key : string).

Definition applyMutation (h : heap) (o : Object) (m : mutation)
  : outcome (heap * Object) :=
  match m with
  | MSet key value => Set_ h o key value
  | MDelete key => Delete h o key
  end.

Fixpoint applyMutations (h : heap) (o : Object) (ms : list mutation)
  : outcome (heap * Object) :=
  match ms with
  | [] => Done (h, o)
  | m :: rest =>
      p <-! applyMutation h o m ;;
      applyMutations p.1 p.2 rest
  end.

End Container.

(** ** Notions the properties are stated with *)

Section ContainerSpec.
Context {V : Type}.
Implicit Types (h : gmap loc (list (Entry V))) (o : Object) (es : list (Entry V)).
Implicit Types (key : string).

(** [key]'s position: the first entry carrying it *)
Definition keyAt es key (p : nat) : Prop :=
  (exists e, es !! p = Some e /\ Key e = key) /\
  forall j e, (j < p)%nat -> es !! j = Some e -> Key e <> key.

Definition absent es key : Prop := forall e, e ∈ es -> Key e <> key.

Definition keysOf es : list string := Key <$> es.

(** [es'] is [es] with the value at position [p] replaced: the entry at
    [p] is [(key, value)], every other position and the length are as
    before *)
Definition overwrittenAt es es' key (value : V) (p : nat) : Prop :=
  es' !! p = Some (mkEntry key value) /\
  (forall j, j <> p -> es' !! j = es !! j) /\
  length es' = length es.

(** [es'] is [es] without the entry at position [p]: the positions before
    [p] are as before, those from [p] on hold what came one later, and the
    length is one less *)
Definition removedAt es es' (p : nat) : Prop :=
  (forall j, (j < p)%nat -> es' !! j = es !! j) /\
  (forall j, (p <= j)%nat -> es' !! j = es !! S j) /\
  S (length es') = length es.

Definition wfObject h o : Prop := Slice.wf h (entries o).

End ContainerSpec.

Section CodecSpec.
Context {V : Type} `{GoValue V} `{GoRuntime}.
Implicit Types (h : gmap loc (list (Entry V))) (o : Object) (es : list (Entry V)).
Implicit Types (enc : jsontext.Encoder) (dec : jsontext.Decoder).

(** the tokens a value contributes: whatever its marshaller appends *)
Definition valueTokens (value : V) enc : list jsontext.Token :=
  match asOrderedMarshaler value with
  | Some marshalTo => (marshalTo enc).1
  | None => (MarshalEncode enc value (json.mkOptions true)).1
  end.

(** the specified emission, entry by entry: the key as a string token,
    then the value's tokens *)
Fixpoint memberChunks es enc : list (list jsontext.Token) :=
  match es with
  | [] => []
  | entry :: rest =>
      let name := jsontext.String (Key entry) in
      let chunk := name :: valueTokens (Value entry) (jsontext.emit enc [name]) in
      chunk :: memberChunks rest (jsontext.emit enc chunk)
  end.

Definition objectTokens es enc : list jsontext.Token :=
  jsontext.BeginObject
    :: concat (memberChunks es (jsontext.emit enc [jsontext.BeginObject]))
    ++ [jsontext.EndObject].

(** every write and every value marshaller succeeds while the entries
    [es] are emitted to [enc] *)
Fixpoint membersAccepted es enc : Prop :=
  match es with
  | [] => True
  | entry :: rest =>
      let name := jsontext.String (Key entry) in
      (jsontext.WriteToken enc name).2 = None /\
      (marshalValue (Value entry) (jsontext.emit enc [name])).2 = None /\
      membersAccepted rest
        (jsontext.emit enc (name :: valueTokens (Value entry) (jsontext.emit enc [name])))
  end.

(** the same of the whole object, its two braces included *)
Definition objectAccepted es enc : Prop :=
  (jsontext.WriteToken enc jsontext.BeginObject).2 = None /\
  membersAccepted es (jsontext.emit enc [jsontext.BeginObject]) /\
  (jsontext.WriteToken
     (jsontext.emit enc
        (jsontext.BeginObject
           :: concat (memberChunks es (jsontext.emit enc [jsontext.BeginObject]))))
     jsontext.EndObject).2 = None.


(** the members a decoder yields from a key position on: each is a string
    token followed by a value the generic unmarshaller accepts *)
Inductive members : jsontext.Decoder -> list (Entry V) -> jsontext.Decoder -> Prop :=
| members_nil dec : members dec [] dec
| members_cons dec key toks value n es dec' :
    jsontext.input dec = jsontext.String key :: toks ->
    UnmarshalDecode (jsontext.advance 1 dec) = inr (value, n) ->
    members (jsontext.advance n (jsontext.advance 1 dec)) es dec' ->
    members dec (mkEntry key value :: es) dec'.

(** where the member loop stops, and with which result *)
Inductive halts : jsontext.Decoder -> option error -> Prop :=
| halts_end dec :
    jsontext.PeekKind dec = "}"%char -> halts dec None
| halts_read dec :
    jsontext.PeekKind dec <> "}"%char -> jsontext.input dec = [] ->
    halts dec (Some (Upstream (jsontext.stopErr dec)))
| halts_key dec t rest :
    jsontext.input dec = t :: rest ->
    jsontext.TokenKind t <> "}"%char -> jsontext.TokenKind t <> "034"%char ->
    halts dec (Some (ErrExpectedStringKey (jsontext.TokenKind t)))
| halts_value dec key rest err :
    jsontext.input dec = jsontext.String key :: rest ->
    UnmarshalDecode (jsontext.advance 1 dec) = inl err ->
    halts dec (Some (Upstream err)).

(** the member loop with the fuel [UnmarshalJSONFrom] gives it *)
Definition decodeLoop h o dec :
  option (gmap loc (list (Entry V)) * Object * jsontext.Decoder * option error) :=
  decodeEntries (S (length (jsontext.input dec))) h o dec.

(** the result once the loop has stopped: its error, or that of reading
    the closing token *)
Definition closing dec (r : option error) : option error :=
  match r with
  | Some err => Some err
  | None =>
      match jsontext.input dec with
      | [] => Some (Upstream (jsontext.stopErr dec))
      | _ :: _ => None
      end
  end.





(** states an object goes through under the public mutating operations;
    [allowed] restricts the decoders handed to [UnmarshalJSONFrom] *)
Inductive step (allowed : jsontext.Decoder -> Prop)
  : gmap loc (list (Entry V)) * Object -> gmap loc (list (Entry V)) * Object -> Prop :=
| step_Set h o key value h' o' :
    Set_ h o key value = Done (h', o') -> step allowed (h, o) (h', o')
| step_Delete h o key h' o' :
    Delete h o key = Done (h', o') -> step allowed (h, o) (h', o')
| step_Unmarshal h o dec h' o' dec' r :
    allowed dec ->
    UnmarshalJSONFrom h o dec = Some (h', o', dec', r) -> step allowed (h, o) (h', o')
| step_Clone h o h' o' :
    Clone h o = Done (h', o') -> step allowed (h, o) (h', o').

Inductive reachable (allowed : jsontext.Decoder -> Prop)
  : gmap loc (list (Entry V)) * Object -> Prop :=
| reachable_new h capacity h' o :
    NewObject h capacity = Done (h', o) -> reachable allowed (h', o)
| reachable_step st st' :
    reachable allowed st -> step allowed st st' -> reachable allowed st'.

(** a decoder whose object has pairwise distinct member names, as far as
    it can be read *)
Definition distinctNames dec : Prop :=
  forall es stop, members (jsontext.advance 1 dec) es stop -> NoDup (keysOf es).

End CodecSpec.

(** *** The byte-level convenience wrappers

    [MarshalJSON] and [UnmarshalJSON] go through [jsontext.NewEncoder] and
    [jsontext.NewDecoder], whose byte-level behaviour belongs to the
    external package: the validation of a default encoder, the bytes it
    leaves in its buffer, and the tokenization of a byte buffer. *)
Class JsonText : Type := {
  defaultValidate : list jsontext.Token -> jsontext.Token -> option ExtError;
  Bytes : list jsontext.Token -> string;
  NewDecoder : string -> jsontext.Decoder
}.

Section Wrappers.
Context {V : Type} `{GoValue V} `{GoRuntime} `{JsonText}.

Definition NewEncoder : jsontext.Encoder := jsontext.mkEncoder defaultValidate [].

Definition MarshalJSON (h : gmap loc (list (Entry V))) (o : Object) : ExtError + string :=
  match MarshalJSONTo h o NewEncoder with
  | (_, Some err) => inl err
  | (enc, None) => inr (Bytes (jsontext.written enc))
  end.

Definition UnmarshalJSON (h : gmap loc (list (Entry V))) (o : Object) (data : string)
  : option (gmap loc (list (Entry V)) * Object * jsontext.Decoder * option error) :=
  UnmarshalJSONFrom h o (NewDecoder data).

End Wrappers.

(** ** A concrete instance of the external interfaces

    Used to run the package on concrete inputs.  It covers a fragment of
    JSON: insignificant whitespace, the structural characters, the three
    literals, strings of plain characters (no escapes) and integers in
    canonical form with at most fifteen digits; anything else is answered
    with an error naming the fragment.  The encoder ends each top-level
    value with a newline. *)
Module Fragment.

Definition quote : ascii := "034".
Definition backslash : ascii := "092".

Definition isSpace (c : ascii) : bool :=
  Ascii.eqb c " " || Ascii.eqb c "009" || Ascii.eqb c "010" || Ascii.eqb c "013".

Definition isDigit (c : ascii) : bool :=
  let n := nat_of_ascii c in (48 <=? n)%nat && (n <=? 57)%nat.

Definition isLower (c : ascii) : bool :=
  let n := nat_of_ascii c in (97 <=? n)%nat && (n <=? 122)%nat.

Definition isPlain (c : ascii) : bool :=
  let n := nat_of_ascii c in
  (32 <=? n)%nat && (n <? 127)%nat && negb (Ascii.eqb c quote) && negb (Ascii.eqb c backslash).

Fixpoint allChars (p : ascii -> bool) (s : string) : bool :=
  match s with
  | EmptyString => true
  | String c rest => p c && allChars p rest
  end.

(** canonical integers: an optional minus, then [0] or a digit string
    without a leading zero, at most fifteen digits *)
Definition canonicalDigits (ds : string) : bool :=
  match ds with
  | EmptyString => false
  | String "0" EmptyString => true
  | String c _ =>
      negb (Ascii.eqb c "0") && allChars isDigit ds
      && (String.length ds <=? 15)%nat
  end.

Definition canonicalNumber (lit : string) : bool :=
  match lit with
  | String "-" ds => canonicalDigits ds
  | _ => canonicalDigits lit
  end.

Inductive lexeme : Type :=
| LTok (t : jsontext.Token)
| LComma
| LColon
| LBad (msg : ExtError).

Inductive lexState : Type :=
| Idle
| InString (acc : string)
| InNumber (acc : string)
| InWord (acc : string).

Definition snoc (s : string) (c : ascii) : string := (s ++ String c EmptyString)%string.

Definition outsideFragment : ExtError := "outside the modelled fragment".

Definition lexIdle (c : ascii) : list lexeme * lexState :=
  if isSpace c then ([], Idle)
  else if Ascii.eqb c "{" then ([LTok jsontext.BeginObject], Idle)
  else if Ascii.eqb c "}" then ([LTok jsontext.EndObject], Idle)
  else if Ascii.eqb c "[" then ([LTok jsontext.BeginArray], Idle)
  else if Ascii.eqb c "]" then ([LTok jsontext.EndArray], Idle)
  else if Ascii.eqb c "," then ([LComma], Idle)
  else if Ascii.eqb c ":" then ([LColon], Idle)
  else if Ascii.eqb c quote then ([], InString EmptyString)
  else if isDigit c || Ascii.eqb c "-" then ([], InNumber (String c EmptyString))
  else if isLower c then ([], InWord (String c EmptyString))
  else ([LBad "invalid character"], Idle).

Definition closeNumber (acc : string) : lexeme :=
  if canonicalNumber acc then LTok (jsontext.Number acc) else LBad outsideFragment.

Definition closeWord (acc : string) : lexeme :=
  if String.eqb acc "true" then LTok (jsontext.Bool true)
  else if String.eqb acc "false" then LTok (jsontext.Bool false)
  else if String.eqb acc "null" then LTok jsontext.Null
  else LBad "invalid literal".

Definition lexStep (st : lexState) (c : ascii) : list lexeme * lexState :=
  match st with
  | Idle => lexIdle c
  | InString acc =>
      if Ascii.eqb c quote then ([LTok (jsontext.String acc)], Idle)
      else if isPlain c then ([], InString (snoc acc c))
      else ([LBad outsideFragment], Idle)
  | InNumber acc =>
      if isDigit c then ([], InNumber (snoc acc c))
      else if Ascii.eqb c "." || Ascii.eqb c "e" || Ascii.eqb c "E" then
        ([LBad outsideFragment], Idle)
      else let r := lexIdle c in (closeNumber acc :: r.1, r.2)
  | InWord acc =>
      if isLower c then ([], InWord (snoc acc c))
      else let r := lexIdle c in (closeWord acc :: r.1, r.2)
  end.

Definition lexEnd (st : lexState) : list lexeme :=
  match st with
  | Idle => []
  | InString _ => [LBad "unexpected EOF"]
  | InNumber acc => [closeNumber acc]
  | InWord acc => [closeWord acc]
  end.

Fixpoint lex (st : lexState) (data : string) : list lexeme :=
  match data with
  | EmptyString => lexEnd st
  | String c rest => let r := lexStep st c in r.1 ++ lex r.2 rest
  end.

(** the grammar state shared by the encoder and the decoder: one frame per
    open object or array, counting the tokens written at that level and,
    for an object, the member names seen *)
Record frame : Type := mkFrame { isObject : bool; count : nat; names : list string }.

Definition atName (f : frame) : bool := isObject f && Nat.even (count f).

(** the delimiter that precedes the next name or value *)
Definition delimiter (stack : list frame) : string :=
  match stack with
  | [] => ""
  | f :: _ =>
      if isObject f && Nat.odd (count f) then ":"
      else if (count f =? 0)%nat then "" else ","
  end.

Definition open (t : jsontext.Token) (stack : list frame) : list frame :=
  match t with
  | jsontext.BeginObject => mkFrame true 0 [] :: stack
  | jsontext.BeginArray => mkFrame false 0 [] :: stack
  | _ => stack
  end.

Definition step (stack : list frame) (t : jsontext.Token) : ExtError + list frame :=
  match t, stack with
  | jsontext.EndObject, f :: rest =>
      if atName f then inr rest else inl "unexpected object end"
  | jsontext.EndArray, f :: rest =>
      if isObject f then inl "unexpected array end" else inr rest
  | jsontext.EndObject, [] | jsontext.EndArray, [] => inl "unexpected end"
  | _, [] => inr (open t [])
  | _, f :: rest =>
      if atName f then
        match t with
        | jsontext.String s =>
            if existsb (String.eqb s) (names f) then inl "duplicate object member name"
            else inr (mkFrame true (S (count f)) (s :: names f) :: rest)
        | _ => inl "object member name must be a string"
        end
      else inr (open t (mkFrame (isObject f) (S (count f)) (names f) :: rest))
  end.

Fixpoint run (stack : list frame) (ts : list jsontext.Token) : ExtError + list frame :=
  match ts with
  | [] => inr stack
  | t :: rest =>
      match step stack t with
      | inl e => inl e
      | inr stack' => run stack' rest
      end
  end.

Definition validate (writtenSoFar : list jsontext.Token) (t : jsontext.Token)
  : option ExtError :=
  match run [] writtenSoFar with
  | inl e => Some e
  | inr stack => match step stack t with inl e => Some e | inr _ => None end
  end.

Definition tokenText (t : jsontext.Token) : string :=
  match t with
  | jsontext.String s => String quote (snoc s quote)
  | _ => jsontext.TokenString t
  end.

Definition isClose (t : jsontext.Token) : bool :=
  match t with
  | jsontext.EndObject | jsontext.EndArray => true
  | _ => false
  end.

Definition newline : string := String "010"%char EmptyString.

(** compact output: a comma between siblings, a colon after a name, no
    other whitespace than the newline the encoder writes after each
    top-level value *)
Fixpoint render (stack : list frame) (ts : list jsontext.Token) : string :=
  match ts with
  | [] => ""
  | t :: rest =>
      let sep := if isClose t then "" else delimiter stack in
      let stack' := match step stack t with inr s => s | inl _ => stack end in
      let ending := match stack' with [] => newline | _ :: _ => "" end in
      (sep ++ tokenText t ++ ending ++ render stack' rest)%string
  end.

(** the tokens of a lexeme sequence up to the first violation of the
    grammar, and the error that ends them *)
Fixpoint parse (stack : list frame) (pending : string) (ls : list lexeme)
  : list jsontext.Token * ExtError :=
  match ls with
  | [] => ([], if String.eqb pending "" then "EOF" else "unexpected EOF")
  | LBad msg :: _ => ([], msg)
  | LComma :: rest => parse stack (snoc pending ",") rest
  | LColon :: rest => parse stack (snoc pending ":") rest
  | LTok t :: rest =>
      let want := if isClose t then "" else delimiter stack in
      if negb (String.eqb pending want) then ([], "unexpected delimiter")
      else
        match step stack t with
        | inl e => ([], e)
        | inr stack' => let r := parse stack' "" rest in (t :: r.1, r.2)
        end
  end.

Definition newDecoder (data : string) : jsontext.Decoder :=
  let r := parse [] "" (lex Idle data) in
  jsontext.mkDecoder r.1 r.2 jsontext.invalidKind.

#[export] Instance jsonText : JsonText :=
  {| defaultValidate := validate; Bytes := render []; NewDecoder := newDecoder |}.

(** a decoder that hands out a given token sequence as it is, as one
    configured to allow duplicate names does *)
Definition lenientDecoder (ts : list jsontext.Token) : jsontext.Decoder :=
  jsontext.mkDecoder ts "EOF" jsontext.invalidKind.

(** an encoder that accepts every token *)
Definition lenientEncoder : jsontext.Encoder := jsontext.mkEncoder (fun _ _ => None) [].

(** the dynamic type [any], restricted to scalars; [AChan] stands for a
    channel, which the generic marshaller refuses *)
Inductive any : Type :=
| ANil
| ABool (b : bool)
| AFloat64 (lit : string)
| AString (s : string)
| AChan.

Definition marshalAny (enc : jsontext.Encoder) (v : any) (_ : json.Options)
  : list jsontext.Token * option ExtError :=
  let t := match v with
           | ANil => inr jsontext.Null
           | ABool b => inr (jsontext.Bool b)
           | AFloat64 lit => inr (jsontext.Number lit)
           | AString s => inr (jsontext.String s)
           | AChan => inl "json: cannot marshal from Go chan"%string
           end in
  match t with
  | inl e => ([], Some e)
  | inr t =>
      match jsontext.WriteToken enc t with
      | (_, Some e) => ([], Some e)
      | (_, None) => ([t], None)
      end
  end.

Definition unmarshalAny (dec : jsontext.Decoder) : ExtError + (any * nat) :=
  match jsontext.input dec with
  | [] => inl (jsontext.stopErr dec)
  | jsontext.Null :: _ => inr (ANil, 1%nat)
  | jsontext.Bool b :: _ => inr (ABool b, 1%nat)
  | jsontext.Number lit :: _ => inr (AFloat64 lit, 1%nat)
  | jsontext.String s :: _ => inr (AString s, 1%nat)
  | _ => inl outsideFragment
  end.

#[export] Instance anyValue : GoValue any :=
  {| zeroValue := ANil;
     asOrderedMarshaler := fun _ => None;
     MarshalEncode := marshalAny;
     UnmarshalDecode := unmarshalAny |}.

(** capacity doubling, the runtime's policy for small slices; on
    linux/amd64 [maxAlloc] is 2^48 bytes and an [Entry[any]] takes 32, a
    string header and an interface value, so [makeslice] grants 2^43
    entries *)
#[export] Instance runtime : GoRuntime :=
  {| growslice_cap := fun _ c => (2 * c)%nat;
     makeslice_max := 8796093022208 |}.

(** *** Concrete states *)

Definition quoted (s : string) : string := String quote (snoc s quote).

(** a new object in an empty heap *)
Definition start : gmap loc (list (Entry any)) * Object :=
  match NewObject ∅ [] with
  | Done p => p
  | Panic _ => (∅, mkObject (mkSlice None 0 0))
  end.

Definition after (st : gmap loc (list (Entry any)) * Object) (ms : list mutation)
  : gmap loc (list (Entry any)) * Object :=
  match applyMutations st.1 st.2 ms with
  | Done p => p
  | Panic _ => st
  end.

Definition decoded (st : gmap loc (list (Entry any)) * Object) (dec : jsontext.Decoder)
  : gmap loc (list (Entry any)) * Object :=
  match UnmarshalJSONFrom st.1 st.2 dec with
  | Some (h, o, _, _) => (h, o)
  | None => st
  end.

(** [{"a":"x","b":null,"c":true}] built by three calls of [Set] *)
Definition abc : gmap loc (list (Entry any)) * Object :=
  after start [MSet "a" (AString "x"); MSet "b" ANil; MSet "c" (ABool true)].


(** an object with the key [a] twice, read through a decoder that allows
    duplicate names *)
Definition twiceA : jsontext.Decoder :=
  lenientDecoder [jsontext.BeginObject; jsontext.String "a"; jsontext.Null;
                  jsontext.String "a"; jsontext.Bool true; jsontext.EndObject].


Definition compactText : string :=
  ("{" ++ quoted "name" ++ ":" ++ quoted "test" ++ "}")%string.

(** what the encoder makes of it: the compact text and a newline *)
Definition encodedText : string := (compactText ++ newline)%string.

End Fragment.

(** ** The remaining operations of the package *)

Section MoreOperations.
Context {V : Type} `{GoValue V} `{GoRuntime} `{JsonText}.
Implicit Types (h : gmap loc (list (Entry V))) (o : Object) (es : list (Entry V)).

(** [ForEach].  The callback runs with the heap and the container in its
    reach, and with a state [St] of its own.  [range] evaluates
    [object.entries] once: the number of rounds and the array read are
    those of the header at the call, and the cell of a round is read when
    that round comes, from the heap as the earlier rounds left it. *)
Definition callback (St : Type) : Type :=
  string -> V -> gmap loc (list (Entry V)) * Object * St ->
  outcome (gmap loc (list (Entry V)) * Object * St).

Fixpoint rangeEntries {St : Type} (s0 : slice) (fn : callback St) (i rounds : nat)
  (st : gmap loc (list (Entry V)) * Object * St)
  : outcome (gmap loc (list (Entry V)) * Object * St) :=
  match rounds with
  | O => Done st
  | S rounds' =>
      entry <-! s_index st.1.1 s0 (Z.of_nat i) ;;
      st' <-! fn (Key entry) (Value entry) st ;;
      rangeEntries s0 fn (S i) rounds' st'
  end.

Definition ForEach {St : Type} h o (fn : callback St) (s : St)
  : outcome (gmap loc (list (Entry V)) * Object * St) :=
  rangeEntries (entries o) fn 0 (len (entries o)) (h, o, s).

(** a callback that works on its own state only *)
Definition onState {St : Type} (g : string -> V -> St -> St) : callback St :=
  fun key value st => Done (st.1, g key value st.2).

(** a callback that deletes the key it is handed and notes it *)
Definition deleting : callback (list string) :=
  fun key _ st =>
    p <-! Delete st.1.1 st.1.2 key ;;
    Done (p, st.2 ++ [key]).

(** [ToMap]: the entries assigned to a new map in stored order *)
Definition ToMap h o : gmap string V :=
  foldl (fun m entry => <[Key entry := Value entry]> m) ∅ (contents h o).

(** the loop [for k, v := range m { obj.Set(k, v) }] over the pairs in the
    order the iteration yields them *)
Fixpoint setEach h o (kvs : list (string * V)) : outcome (gmap loc (list (Entry V)) * Object) :=
  match kvs with
  | [] => Done (h, o)
  | kv :: rest =>
      p <-! Set_ h o kv.1 kv.2 ;;
      setEach p.1 p.2 rest
  end.

(** [FromMap].  Go leaves the iteration order of a map open: [order] is
    the order in which [range m] yields the entries of [m], some
    permutation of them. *)
Definition FromMap h (m : gmap string V) (order : list (string * V))
  : outcome (gmap loc (list (Entry V)) * Object) :=
  p <-! NewObject h [Z.of_nat (size m)] ;;
  setEach p.1 p.2 order.

(** the error [FromJSON] returns: [fmt.Errorf("failed to unmarshal JSON: %w", err)] *)
Inductive FromJSONError : Type :=
| FailedToUnmarshal (err : error).

(** [FromJSON]: the object, or the wrapped error and no object *)
Definition FromJSON h (data : string)
  : outcome (option (gmap loc (list (Entry V)) * (FromJSONError + Object))) :=
  p <-! NewObject h [] ;;
  Done (match UnmarshalJSON p.1 p.2 data with
        | Some (h', _, _, Some err) => Some (h', inl (FailedToUnmarshal err))
        | Some (h', o', _, None) => Some (h', inr o')
        | None => None
        end).

End MoreOperations.

(** *** Values that are read back from their own tokens *)

Section ReadBackSpec.
Context {V : Type} `{GoValue V}.

(** the generic unmarshaller, at the tokens [toks] followed by anything,
    reads exactly them and yields [value] *)
Definition unmarshalsBack (value : V) (toks : list jsontext.Token) : Prop :=
  forall dec rest, jsontext.input dec = toks ++ rest ->
    UnmarshalDecode dec = inr (value, length toks).

(** the same of the value of every entry, for the tokens its marshaller
    appends when the entries are written in sequence to [enc] *)
Fixpoint entriesUnmarshalBack (es : list (Entry V)) (enc : jsontext.Encoder) : Prop :=
  match es with
  | [] => True
  | entry :: rest =>
      let name := jsontext.String (Key entry) in
      let toks := valueTokens (Value entry) (jsontext.emit enc [name]) in
      unmarshalsBack (Value entry) toks /\
      entriesUnmarshalBack rest (jsontext.emit enc (name :: toks))
  end.

End ReadBackSpec.

(** ** The entry sequence as a list

    What [Set], [Delete] and [Get] do to the sequence of entries, written
    as functions on lists; the heap operations are shown to compute
    them. *)

Section EntryLists.
Context {V : Type}.
Implicit Types (es : list (Entry V)) (key : string).

Fixpoint setEntry es key (value : V) : list (Entry V) :=
  match es with
  | [] => [mkEntry key value]
  | entry :: rest =>
      if String.eqb (Key entry) key then mkEntry (Key entry) value :: rest
      else entry :: setEntry rest key value
  end.

Fixpoint deleteEntry es key : list (Entry V) :=
  match es with
  | [] => []
  | entry :: rest =>
      if String.eqb (Key entry) key then rest
      else entry :: deleteEntry rest key
  end.

Fixpoint getEntry es key : option V :=
  match es with
  | [] => None
  | entry :: rest =>
      if String.eqb (Key entry) key then Some (Value entry)
      else getEntry rest key
  end.

(** the keys of a sequence of assignments, each at its first occurrence *)
Fixpoint firstKeys (ks : list string) : list string :=
  match ks with
  | [] => []
  | k :: rest => k :: filter (fun k' => k' <> k) (firstKeys rest)
  end.

(** the entry a pair of a map becomes *)
Definition toEntry (kv : string * V) : Entry V := mkEntry (fst kv) (snd kv).

(** a plain map assigned the pairs in sequence *)
Definition assignAll (kvs : list (string * V)) : gmap string V :=
  foldl (fun m kv => <[kv.1 := kv.2]> m) ∅ kvs.

End EntryLists.

(** *** More concrete inputs *)

Module Samples.

(** the step relation of the package; [Fragment] has a [step] of its own *)
Abbreviation publicStep := step.

Import Fragment.

Definition colours : gmap string any :=
  <["red" := AString "f00"]> (<["green" := AString "0f0"]> (<["blue" := ANil]> ∅)).

(** one order in which the three entries may be yielded *)
Definition coloursOrder : list (string * any) :=
  [("green", AString "0f0"); ("blue", ANil); ("red", AString "f00")].

(** assignments with a repeated key *)
Definition assignments : list (string * any) :=
  [("a", AString "1"); ("b", AString "2"); ("a", AString "3"); ("c", ANil)].

(** the container [abc] and a clone of it, side by side in one heap *)
Definition cloned : gmap loc (list (Entry any)) * Object :=
  match Clone abc.1 abc.2 with
  | Done p => p
  | Panic _ => abc
  end.

(** an object cut short after its first member: a number stands where the
    second name should *)
Definition cutShort : jsontext.Decoder :=
  lenientDecoder [jsontext.BeginObject; jsontext.String "k"; jsontext.Null;
                  jsontext.Number "1"].

(** what [MarshalJSONTo] writes of [abc] to an encoder that accepts every
    token, and the bytes [MarshalJSON] returns for it *)
Definition abcWritten : jsontext.Encoder := (MarshalJSONTo abc.1 abc.2 lenientEncoder).1.

Definition abcText : string :=
  match MarshalJSON abc.1 abc.2 with
  | inr out => out
  | inl _ => EmptyString
  end.

End Samples.

(** * Facts *)

(** ** Slices *)

Section SliceFacts.
Import Slice.
Context {A : Type} (zero : A) (grow : nat -> nat -> nat).

#[local] Abbreviation heap := (gmap loc (list A)).
#[local] Abbreviation append := (Slice.append zero grow).
#[local] Abbreviation make := (Slice.make zero None).

Implicit Types (h : gmap loc (list A)) (s : slice) (xs src arr : list A) (l : loc) (x : A).

Lemma fresh_lookup_None (h : heap) : h !! fresh (dom h) = None.
Proof. apply not_elem_of_dom, is_fresh. Qed.

Lemma fresh_ne (h : heap) (l : loc) : is_Some (h !! l) -> fresh (dom h) <> l.
Proof.
  intros Hl <-. rewrite fresh_lookup_None in Hl. by destruct Hl.
Qed.

Lemma wf_backing_length h s : wf h s -> length (backing h s) = cap s.
Proof.
  unfold wf, backing. intros [_ Hp]. destruct (ptr s) as [l|]; simpl.
  - destruct (h !! l) as [arr|]; simpl in *; congruence.
  - done.
Qed.

Lemma wf_elems_length h s : wf h s -> length (elems h s) = len s.
Proof.
  intros Hwf. unfold elems. rewrite length_take, (wf_backing_length h s Hwf).
  destruct Hwf. lia.
Qed.

Lemma wf_ptr_alloc h s l : wf h s -> ptr s = Some l -> is_Some (h !! l).
Proof.
  intros [_ Hp] Hl. rewrite Hl in Hp.
  destruct (h !! l); [eauto | discriminate].
Qed.

(** a heap update at one address leaves every slice on another address as
    it was *)
Lemma elems_insert_ne h s l arr :
  ptr s <> Some l -> elems (<[l := arr]> h) s = elems h s.
Proof.
  intros Hne. unfold elems, backing. destruct (ptr s) as [l'|]; [|done].
  rewrite lookup_insert_ne; [done | congruence].
Qed.

Lemma wf_insert_ne h s l arr :
  ptr s <> Some l -> wf h s -> wf (<[l := arr]> h) s.
Proof.
  intros Hne [Hle Hp]. split; [done|]. destruct (ptr s) as [l'|]; [|done].
  rewrite lookup_insert_ne; [done | congruence].
Qed.

Lemma elems_insert_eq h l n c arr :
  elems (<[l := arr]> h) (mkSlice (Some l) n c) = take n arr.
Proof. unfold elems, backing. simpl. by rewrite lookup_insert_eq. Qed.

Lemma wf_insert_eq h l n c arr :
  (n <= c)%nat -> length arr = c -> wf (<[l := arr]> h) (mkSlice (Some l) n c).
Proof.
  intros Hle Hlen. split; simpl; [done|]. rewrite lookup_insert_eq. simpl. congruence.
Qed.

(** [make] *)
Lemma make_Done h n c :
  0 <= n <= c ->
  make h n c =
  Done (<[fresh (dom h) := replicate (Z.to_nat c) zero]> h,
        mkSlice (Some (fresh (dom h))) (Z.to_nat n) (Z.to_nat c)).
Proof.
  intros Hr. unfold Slice.make, beyond, alloc.
  rewrite (proj2 (Z.ltb_ge n 0)), (proj2 (Z.ltb_ge c n)) by lia. done.
Qed.

Lemma make_bounded_Done (b : Z) h n c :
  0 <= n <= c -> c <= b ->
  Slice.make zero (Some b) h n c =
  Done (<[fresh (dom h) := replicate (Z.to_nat c) zero]> h,
        mkSlice (Some (fresh (dom h))) (Z.to_nat n) (Z.to_nat c)).
Proof.
  intros Hr Hb. unfold Slice.make, beyond, alloc.
  rewrite (proj2 (Z.ltb_ge n 0)), (proj2 (Z.ltb_ge c n)) by lia.
  rewrite (proj2 (Z.ltb_ge b n)), (proj2 (Z.ltb_ge b c)) by lia. done.
Qed.

Lemma make_Panic_cap (b : Z) h c :
  0 <= b -> c < 0 \/ b < c ->
  Slice.make zero (Some b) h 0 c = Panic "makeslice: cap out of range".
Proof.
  intros Hb Hc. unfold Slice.make, beyond. change (0 <? 0) with false.
  rewrite (proj2 (Z.ltb_ge b 0)) by lia. simpl.
  destruct Hc as [Hc|Hc].
  - by rewrite (proj2 (Z.ltb_lt c 0)) by lia.
  - rewrite (proj2 (Z.ltb_lt b c)) by lia. by rewrite orb_true_r.
Qed.

(** [append]: the new contents, the new header and the frame *)
Lemma append_elems h s xs :
  wf h s -> elems (append h s xs).1 (append h s xs).2 = elems h s ++ xs.
Proof.
  intros Hwf. unfold append.
  pose proof (wf_backing_length h s Hwf) as Hbl.
  destruct (len s + length xs <=? cap s)%nat eqn:E.
  - apply Nat.leb_le in E. destruct (ptr s) as [l|] eqn:Hp; simpl.
    + rewrite elems_insert_eq. unfold elems.
      rewrite app_assoc, take_app_le.
      2:{ rewrite length_app, length_take. lia. }
      rewrite take_ge; [done|]. rewrite length_app, length_take. lia.
    + destruct Hwf as [_ Hc]. rewrite Hp in Hc.
      assert (xs = []) as -> by (destruct xs; [done | simpl in E; lia]).
      unfold elems, backing. simpl. rewrite Hp. by rewrite !take_nil.
  - simpl. rewrite elems_insert_eq.
    pose proof (wf_elems_length h s Hwf) as Hel.
    rewrite app_assoc, take_app_le.
    2:{ rewrite length_app. lia. }
    rewrite take_ge; [done|]. rewrite length_app. lia.
Qed.

Lemma append_wf h s xs : wf h s -> wf (append h s xs).1 (append h s xs).2.
Proof.
  intros Hwf. unfold append.
  pose proof (wf_backing_length h s Hwf) as Hbl.
  destruct (len s + length xs <=? cap s)%nat eqn:E.
  - apply Nat.leb_le in E. destruct (ptr s) as [l|] eqn:Hp; simpl.
    + apply wf_insert_eq; [done|].
      rewrite !length_app, length_take, length_drop. lia.
    + destruct Hwf as [_ Hc]. rewrite Hp in Hc. split; simpl; [lia | done].
  - apply Nat.leb_gt in E. simpl. apply wf_insert_eq; [lia|].
    rewrite !length_app, length_replicate, (wf_elems_length h s Hwf). lia.
Qed.

Lemma append_len h s xs : len (append h s xs).2 = (len s + length xs)%nat.
Proof.
  unfold append. destruct (len s + length xs <=? cap s)%nat; [|done].
  by destruct (ptr s).
Qed.

(** cells owned by other slices are neither written nor handed out *)
Lemma append_frame h s xs l :
  is_Some (h !! l) -> ptr s <> Some l ->
  (append h s xs).1 !! l = h !! l /\ ptr (append h s xs).2 <> Some l.
Proof.
  intros Hl Hne. unfold append.
  destruct (len s + length xs <=? cap s)%nat.
  - destruct (ptr s) as [l'|] eqn:Hp; simpl; [|done].
    split; [|done]. rewrite lookup_insert_ne; [done | congruence].
  - simpl. pose proof (fresh_ne h l Hl) as Hf. split.
    + by rewrite lookup_insert_ne.
    + congruence.
Qed.

Lemma append_alloc h s xs l :
  is_Some (h !! l) -> is_Some ((append h s xs).1 !! l).
Proof.
  intros Hl. unfold append.
  destruct (len s + length xs <=? cap s)%nat.
  - destruct (ptr s) as [l'|]; simpl; [|done].
    destruct (decide (l' = l)) as [->|]; [rewrite lookup_insert_eq; eauto|].
    by rewrite lookup_insert_ne.
  - simpl. rewrite lookup_insert_ne; [done|]. by apply fresh_ne.
Qed.

(** [store] *)
Lemma store_Done h s i x :
  wf h s -> (i < len s)%nat ->
  exists h', store h s (Z.of_nat i) x = Done h' /\
    elems h' s = <[i := x]> (elems h s) /\ wf h' s /\
    (forall l, ptr s <> Some l -> h' !! l = h !! l) /\
    (forall l, is_Some (h !! l) -> is_Some (h' !! l)).
Proof.
  intros Hwf Hi. unfold store.
  pose proof (wf_backing_length h s Hwf) as Hbl.
  destruct (0 <=? Z.of_nat i) eqn:E0; [|lia].
  destruct (Z.of_nat i <? Z.of_nat (len s)) eqn:E1; [|lia]. simpl.
  destruct s as [[l|] n c]; simpl in *.
  - eexists; split; [done|]. rewrite Nat2Z.id. repeat split.
    + rewrite elems_insert_eq. unfold elems; simpl.
      by rewrite take_insert_lt.
    + destruct Hwf; done.
    + simpl. rewrite lookup_insert_eq; simpl. rewrite length_insert. congruence.
    + intros l' Hne. rewrite lookup_insert_ne; [done | congruence].
    + intros l' Hl'. destruct (decide (l = l')) as [->|];
        [rewrite lookup_insert_eq; eauto | by rewrite lookup_insert_ne].
  - destruct Hwf as [Hle Hc]. simpl in *. lia.
Qed.

(** [copy] into a slice at least as long as the source *)
Lemma copy_elems h l n c src :
  length src = n -> elems (copy h (mkSlice (Some l) n c) src) (mkSlice (Some l) n c) = src.
Proof.
  intros <-. unfold copy. simpl. rewrite elems_insert_eq.
  rewrite Nat.min_id, firstn_all. by rewrite take_app_length.
Qed.

End SliceFacts.

Section SliceReads.
Import Slice.
Context {A : Type} (zero : A).
Implicit Types (h : gmap loc (list A)) (s : slice) (l : loc) (x : A).

Lemma elems_lookup_lt h s i x : elems h s !! i = Some x -> (i < len s)%nat.
Proof.
  unfold elems. intros Hi. apply lookup_lt_Some in Hi.
  rewrite length_take in Hi. lia.
Qed.

Lemma index_Done h s i x :
  elems h s !! i = Some x -> index zero h s (Z.of_nat i) = Done x.
Proof.
  intros Hi. pose proof (elems_lookup_lt h s i x Hi) as Hlt.
  unfold index. destruct (0 <=? Z.of_nat i) eqn:E0; [|lia].
  destruct (Z.of_nat i <? Z.of_nat (len s)) eqn:E1; [|lia]. simpl.
  rewrite Nat2Z.id. f_equal. unfold elems in Hi.
  rewrite lookup_take_lt in Hi by done.
  by apply nth_lookup_Some.
Qed.

Lemma slice_to_Done s i :
  (i <= cap s)%nat -> slice_to s (Z.of_nat i) = Done (mkSlice (ptr s) i (cap s)).
Proof.
  intros Hi. unfold slice_to. destruct (0 <=? Z.of_nat i) eqn:E0; [|lia].
  destruct (Z.of_nat i <=? Z.of_nat (cap s)) eqn:E1; [|lia]. simpl.
  by rewrite Nat2Z.id.
Qed.

Lemma elems_from_Done h s i :
  (i <= len s)%nat -> elems_from h s (Z.of_nat i) = Done (drop i (elems h s)).
Proof.
  intros Hi. unfold elems_from. destruct (0 <=? Z.of_nat i) eqn:E0; [|lia].
  destruct (Z.of_nat i <=? Z.of_nat (len s)) eqn:E1; [|lia]. simpl.
  by rewrite Nat2Z.id.
Qed.

(** shortening a slice keeps it well formed and keeps a prefix *)
Lemma wf_shorten h s i :
  (i <= len s)%nat -> wf h s -> wf h (mkSlice (ptr s) i (cap s)).
Proof. intros Hi [Hle Hp]. split; simpl; [lia | done]. Qed.

Lemma elems_shorten h s i :
  (i <= len s)%nat -> elems h (mkSlice (ptr s) i (cap s)) = take i (elems h s).
Proof.
  intros Hi. unfold elems, backing. simpl.
  rewrite take_take. f_equal. lia.
Qed.

End SliceReads.

Section SliceLoops.
Import Slice.
Context {A : Type} (zero : A) (grow : nat -> nat -> nat).
Implicit Types (h : gmap loc (list A)) (s : slice) (l : loc) (x : A).

Lemma store_frame h s i x h' l :
  store h s i x = Done h' -> ptr s <> Some l -> h' !! l = h !! l.
Proof.
  unfold store. destruct ((0 <=? i) && (i <? Z.of_nat (len s))); [|done].
  destruct (ptr s) as [l'|]; [|done]. intros [= <-] Hne.
  rewrite lookup_insert_ne; [done | congruence].
Qed.

Lemma storeEach_Done {B : Type} (f : B -> A) (es : list B) h s i :
  wf h s -> (i + length es <= len s)%nat ->
  exists h', storeEach f h s (Z.of_nat i) es = Done h' /\
    elems h' s = take i (elems h s) ++ (f <$> es) ++ drop (i + length es) (elems h s) /\
    wf h' s /\
    (forall l, ptr s <> Some l -> h' !! l = h !! l).
Proof.
  revert h i. induction es as [|e es IH]; intros h i Hwf Hi; simpl in *.
  - exists h. split; [done|]. rewrite Nat.add_0_r, take_drop. done.
  - destruct (store_Done h s i (f e) Hwf ltac:(lia)) as (h1 & -> & Hel & Hwf1 & Hfr & _).
    simpl. replace (Z.of_nat i + 1) with (Z.of_nat (S i)) by lia.
    destruct (IH h1 (S i) Hwf1 ltac:(lia)) as (h' & -> & Hel' & Hwf' & Hfr').
    exists h'. split; [done|]. split; [|split; [done|]].
    + rewrite Hel', Hel.
      pose proof (wf_elems_length h s Hwf) as Hlen.
      assert (<[i:=f e]> (elems h s) !! i = Some (f e)) as Hi'
        by (apply list_lookup_insert_eq; lia).
      rewrite (take_S_r _ _ _ Hi'), take_insert_ge by lia.
      rewrite drop_insert_lt by lia. rewrite <- app_assoc. simpl.
      by replace (i + S (length es))%nat with (S (i + length es)) by lia.
    + intros l Hl. rewrite Hfr' by done. by apply Hfr.
Qed.

(** whatever a caller writes through one slice, cells allocated for
    another array stay as they are *)
Lemma applyWrites_frame (ws : list (write (A:=A))) h s l :
  is_Some (h !! l) -> ptr s <> Some l ->
  (applyWrites zero grow h s ws).1 !! l = h !! l.
Proof.
  revert h s. induction ws as [|[i x|xs] ws IH]; intros h s Hl Hne; simpl; [done| |].
  - destruct (store h s i x) as [h'|] eqn:E; [|done].
    pose proof (store_frame h s i x h' l E Hne) as Hfr.
    rewrite IH; [done | by rewrite Hfr | done].
  - destruct (append_frame zero grow h s xs l Hl Hne) as [Hfr Hp].
    rewrite IH; [done | by rewrite Hfr | done].
Qed.

End SliceLoops.

(** ** The container *)

Section ContainerFacts.
Context {V : Type} `{GoValue V} `{GoRuntime}.
Implicit Types (h : gmap loc (list (Entry V))) (o : Object) (es : list (Entry V)).
Implicit Types (key : string) (value : V) (l : loc).

Lemma findKeyIndex_from_keyAt es key p i :
  keyAt es key p -> findKeyIndex_from i es key = i + Z.of_nat p.
Proof.
  revert p i. induction es as [|e0 es IH]; intros p i [[e [Hp Hk]] Hfirst].
  - by rewrite lookup_nil in Hp.
  - simpl. destruct p as [|p].
    + simpl in Hp. injection Hp as ->. rewrite (proj2 (String.eqb_eq _ _) Hk). lia.
    + destruct (String.eqb (Key e0) key) eqn:E.
      * apply String.eqb_eq in E. exfalso. by apply (Hfirst 0%nat e0); [lia | |].
      * rewrite (IH p (i + 1)); [lia|]. split; [by exists e|].
        intros j e' Hj He'. apply (Hfirst (S j) e'); [lia | done].
Qed.

Lemma findKeyIndex_from_absent es key i :
  absent es key -> findKeyIndex_from i es key = -1.
Proof.
  revert i. induction es as [|e0 es IH]; intros i Habs; [done|]. simpl.
  destruct (String.eqb (Key e0) key) eqn:E.
  - apply String.eqb_eq in E. exfalso. apply (Habs e0); [left | done].
  - apply IH. intros e He. apply Habs. by right.
Qed.

(** every key is either absent or sits at exactly one first position *)
Lemma keyAt_or_absent es key : absent es key \/ exists p, keyAt es key p.
Proof.
  induction es as [|e0 es IH].
  - left. intros e He. by apply elem_of_nil in He.
  - destruct (decide (Key e0 = key)) as [Heq|Hne].
    + right. exists 0%nat. split; [by exists e0 | intros; lia].
    + destruct IH as [Habs|[p [[e [Hp Hk]] Hfirst]]].
      * left. intros e He. apply elem_of_cons in He as [->|He]; [done | by apply Habs].
      * right. exists (S p). split; [by exists e|].
        intros [|j] e' Hj He'; simpl in He'.
        -- by injection He' as <-.
        -- apply (Hfirst j e'); [lia | done].
Qed.

Lemma keyAt_not_absent es key p : keyAt es key p -> absent es key -> False.
Proof.
  intros [[e [Hp Hk]] _] Habs. apply (Habs e); [|done].
  apply list_elem_of_lookup. eauto.
Qed.

Lemma keyAt_unique es key p q : keyAt es key p -> keyAt es key q -> p = q.
Proof.
  intros [[e [Hp Hk]] Hfp] [[e' [Hq Hk']] Hfq].
  destruct (Nat.lt_trichotomy p q) as [Hlt|[->|Hgt]]; [|done|].
  - exfalso. by apply (Hfq p e).
  - exfalso. by apply (Hfp q e').
Qed.

(** with pairwise distinct keys, any occurrence is the first *)
Lemma keyAt_NoDup es key p e :
  NoDup (keysOf es) -> es !! p = Some e -> Key e = key -> keyAt es key p.
Proof.
  intros Hnd Hp Hk. split; [by exists e|].
  intros j e' Hj He' Hk'.
  assert (j = p); [|lia].
  eapply (NoDup_lookup (keysOf es) j p key); [done | |];
    unfold keysOf; rewrite list_lookup_fmap; [rewrite He' | rewrite Hp];
    simpl; congruence.
Qed.

Lemma findKeyIndex_keyAt h o key p :
  keyAt (contents h o) key p -> findKeyIndex h o key = Z.of_nat p.
Proof. intros Hk. unfold findKeyIndex. by rewrite (findKeyIndex_from_keyAt _ _ p). Qed.

Lemma findKeyIndex_absent h o key :
  absent (contents h o) key -> findKeyIndex h o key = -1.
Proof. intros Hk. unfold findKeyIndex. by apply findKeyIndex_from_absent. Qed.

Lemma Length_contents h o : wfObject h o -> Length o = Z.of_nat (length (contents h o)).
Proof.
  intros Hwf. unfold Length, contents. by rewrite wf_elems_length.
Qed.

(** *** [Set] *)

Lemma Set_present h o key value p :
  wfObject h o -> keyAt (contents h o) key p ->
  exists h', Set_ h o key value = Done (h', o) /\
    contents h' o = <[p := mkEntry key value]> (contents h o) /\
    wfObject h' o /\
    (forall l, ptr (entries o) <> Some l -> h' !! l = h !! l) /\
    (forall l, is_Some (h !! l) -> is_Some (h' !! l)).
Proof.
  intros Hwf Hk. pose proof Hk as [[e [Hp Hke]] _].
  unfold Set_. rewrite (findKeyIndex_keyAt h o key p Hk).
  rewrite (proj2 (Z.leb_le 0 _)) by lia.
  unfold s_index. rewrite (index_Done zeroEntry h (entries o) p e Hp). simpl.
  destruct (store_Done h (entries o) p (mkEntry (Key e) value) Hwf
              (elems_lookup_lt _ _ _ _ Hp)) as (h' & -> & Hel & Hwf' & Hfr & Hal).
  exists h'. simpl. rewrite Hke in Hel. done.
Qed.

Lemma Set_absent h o key value :
  wfObject h o -> absent (contents h o) key ->
  exists h' o', Set_ h o key value = Done (h', o') /\
    contents h' o' = contents h o ++ [mkEntry key value] /\
    wfObject h' o' /\
    (forall l, is_Some (h !! l) -> ptr (entries o) <> Some l ->
       h' !! l = h !! l /\ ptr (entries o') <> Some l) /\
    (forall l, is_Some (h !! l) -> is_Some (h' !! l)).
Proof.
  intros Hwf Habs. unfold Set_. rewrite (findKeyIndex_absent h o key Habs). simpl.
  eexists _, _. split; [done|]. unfold contents, wfObject, s_append. simpl.
  split; [by apply append_elems|]. split; [by apply append_wf|].
  split; [intros l; apply append_frame | intros l; apply append_alloc].
Qed.

(** *** [Delete] *)

Lemma Delete_present h o key p :
  wfObject h o -> keyAt (contents h o) key p ->
  exists h' o', Delete h o key = Done (h', o') /\
    contents h' o' = take p (contents h o) ++ drop (S p) (contents h o) /\
    wfObject h' o' /\
    (forall l, is_Some (h !! l) -> ptr (entries o) <> Some l ->
       h' !! l = h !! l /\ ptr (entries o') <> Some l) /\
    (forall l, is_Some (h !! l) -> is_Some (h' !! l)).
Proof.
  intros Hwf Hk. pose proof Hk as [[e [Hp Hke]] _].
  pose proof (elems_lookup_lt _ _ _ _ Hp) as Hlt.
  pose proof Hwf as [Hle _].
  unfold Delete. rewrite (findKeyIndex_keyAt h o key p Hk).
  rewrite (proj2 (Z.leb_le 0 _)) by lia.
  rewrite slice_to_Done by lia. simpl.
  replace (Z.of_nat p + 1) with (Z.of_nat (S p)) by lia.
  rewrite elems_from_Done by lia. simpl.
  set (dst := mkSlice (ptr (entries o)) p (cap (entries o))).
  assert (Slice.wf h dst) as Hwfd by (apply wf_shorten; [lia | done]).
  eexists _, _. split; [done|]. unfold contents, wfObject, s_append. simpl.
  split.
  { rewrite append_elems by done. unfold dst. rewrite elems_shorten by lia. done. }
  split; [by apply append_wf|].
  split; [|intros l; apply append_alloc].
  intros l Hl Hne. apply append_frame; [done | exact Hne].
Qed.

Lemma Delete_absent h o key :
  absent (contents h o) key -> Delete h o key = Done (h, o).
Proof.
  intros Habs. unfold Delete. by rewrite (findKeyIndex_absent h o key Habs).
Qed.

(** C3, as the code has it.  [Set] on a key whose first occurrence is at
    position [p] leaves the key there, replaces the value at [p], and
    leaves every other entry and the length as they were; on an absent key
    it appends the entry at the end, all existing entries staying in
    place.  In a container with pairwise distinct keys the first
    occurrence is any position holding the key; a later occurrence of a
    repeated key is not the one [Set] writes. *)
Theorem Set_spec h o key value :
  wfObject h o ->
  exists h' o', Set_ h o key value = Done (h', o') /\ wfObject h' o' /\
    (forall p, keyAt (contents h o) key p ->
       overwrittenAt (contents h o) (contents h' o') key value p /\
       Length o' = Length o) /\
    (NoDup (keysOf (contents h o)) ->
     forall p e, contents h o !! p = Some e -> Key e = key ->
       overwrittenAt (contents h o) (contents h' o') key value p /\
       Length o' = Length o) /\
    (absent (contents h o) key ->
       contents h' o' = contents h o ++ [mkEntry key value] /\
       Length o' = Length o + 1).
Proof.
  intros Hwf. destruct (keyAt_or_absent (contents h o) key) as [Habs|[p Hk]].
  - destruct (Set_absent h o key value Hwf Habs) as (h' & o' & Hrun & Hc & Hwf' & _).
    exists h', o'. split; [done|]. split; [exact Hwf'|]. split; [|split].
    + intros q Hq. exfalso. by apply (keyAt_not_absent _ _ _ Hq).
    + intros Hnd q e Hq Hke. exfalso. apply (Habs e); [|done].
      apply list_elem_of_lookup. eauto.
    + intros _. split; [done|].
      rewrite (Length_contents h' o' Hwf'), (Length_contents h o Hwf), Hc.
      rewrite length_app. simpl. lia.
  - destruct (Set_present h o key value p Hwf Hk) as (h' & Hrun & Hc & Hwf' & _).
    assert (overwrittenAt (contents h o) (contents h' o) key value p) as Hov.
    { rewrite Hc. destruct Hk as [[e [Hp _]] _]. apply lookup_lt_Some in Hp.
      split; [by apply list_lookup_insert_eq|]. split.
      - intros j Hj. by apply list_lookup_insert_ne.
      - apply length_insert. }
    exists h', o. split; [done|]. split; [exact Hwf'|]. split; [|split].
    + intros q Hq. by rewrite (keyAt_unique _ _ _ _ Hq Hk).
    + intros Hnd q e Hq Hke.
      by rewrite (keyAt_unique _ _ _ _ (keyAt_NoDup _ _ _ _ Hnd Hq Hke) Hk).
    + intros Habs. exfalso. by apply (keyAt_not_absent _ _ _ Hk).
Qed.

(** C4, as the code has it.  [Delete] of a key whose first occurrence is
    at position [p] removes the entry at [p]: the entries before it stay,
    those after it move one position to the front, and the length drops by
    one; [Delete] of an absent key changes nothing; in no case does it
    fail.  In a container with pairwise distinct keys the first occurrence
    is any position holding the key; a later occurrence of a repeated key
    is not the one [Delete] removes. *)
Theorem Delete_spec h o key :
  wfObject h o ->
  exists h' o', Delete h o key = Done (h', o') /\ wfObject h' o' /\
    (forall p, keyAt (contents h o) key p ->
       removedAt (contents h o) (contents h' o') p /\
       Length o' = Length o - 1) /\
    (NoDup (keysOf (contents h o)) ->
     forall p e, contents h o !! p = Some e -> Key e = key ->
       removedAt (contents h o) (contents h' o') p /\
       Length o' = Length o - 1) /\
    (absent (contents h o) key -> h' = h /\ o' = o).
Proof.
  intros Hwf. destruct (keyAt_or_absent (contents h o) key) as [Habs|[p Hk]].
  - exists h, o. rewrite (Delete_absent h o key Habs).
    split; [done|]. split; [exact Hwf|]. split; [|split; [|done]].
    + intros q Hq. exfalso. by apply (keyAt_not_absent _ _ _ Hq).
    + intros Hnd q e Hq Hke. exfalso. apply (Habs e); [|done].
      apply list_elem_of_lookup. eauto.
  - destruct (Delete_present h o key p Hwf Hk) as (h' & o' & Hrun & Hc & Hwf' & _).
    assert (removedAt (contents h o) (contents h' o') p /\
            Length o' = Length o - 1) as Hrm.
    { destruct Hk as [[e [Hp _]] _]. apply lookup_lt_Some in Hp.
      assert (length (take p (contents h o)) = p) as Htl
        by (rewrite length_take; lia).
      assert (S (length (contents h' o')) = length (contents h o)) as Hlen.
      { rewrite Hc, length_app, Htl, length_drop. lia. }
      split; [split; [|split; [|done]]|].
      - intros j Hj. rewrite Hc, lookup_app_l by lia. by apply lookup_take_lt.
      - intros j Hj. rewrite Hc, lookup_app_r by lia.
        rewrite Htl, lookup_drop. f_equal. lia.
      - rewrite (Length_contents h' o' Hwf'), (Length_contents h o Hwf). lia. }
    exists h', o'. split; [done|]. split; [exact Hwf'|]. split; [|split].
    + intros q Hq. by rewrite (keyAt_unique _ _ _ _ Hq Hk).
    + intros Hnd q e Hq Hke.
      by rewrite (keyAt_unique _ _ _ _ (keyAt_NoDup _ _ _ _ Hnd Hq Hke) Hk).
    + intros Habs. exfalso. by apply (keyAt_not_absent _ _ _ Hk).
Qed.

(** *** Construction and copies *)

Lemma make_exact {A : Type} (zero : A) (hh : gmap loc (list A)) (n : nat) :
  let l := fresh (dom hh) in
  let hh' := <[l := replicate n zero]> hh in
  let s := mkSlice (Some l) n n in
  Slice.make zero None hh (Z.of_nat n) (Z.of_nat n) = Done (hh', s) /\
  Slice.wf hh' s /\ hh !! l = None /\
  (forall l', is_Some (hh !! l') -> hh' !! l' = hh !! l').
Proof.
  intros l hh' s. split; [|split; [|split]].
  - rewrite make_Done by lia. by rewrite Nat2Z.id.
  - apply wf_insert_eq; [done | apply length_replicate].
  - apply fresh_lookup_None.
  - intros l' Hl'. unfold hh'. rewrite lookup_insert_ne; [done|]. by apply fresh_ne.
Qed.

Lemma contents_ext h h' o :
  (forall l, ptr (entries o) = Some l -> h' !! l = h !! l) ->
  contents h' o = contents h o.
Proof.
  intros Hext. unfold contents, Slice.elems, Slice.backing.
  destruct (ptr (entries o)) as [l|]; [|done]. by rewrite (Hext l).
Qed.

Lemma wfObject_ext h h' o :
  (forall l, ptr (entries o) = Some l -> h' !! l = h !! l) ->
  wfObject h o -> wfObject h' o.
Proof.
  intros Hext [Hle Hp]. split; [done|].
  destruct (ptr (entries o)) as [l|]; [|done]. by rewrite (Hext l).
Qed.

Lemma wfObject_alloc h o l : wfObject h o -> ptr (entries o) = Some l -> is_Some (h !! l).
Proof. apply wf_ptr_alloc. Qed.

Lemma copy_fresh h o (n : nat) :
  wfObject h o -> n = len (entries o) ->
  let l := fresh (dom h) in
  let h1 := <[l := replicate n zeroEntry]> h in
  let s := mkSlice (Some l) n n in
  let h2 := Slice.copy h1 s (contents h1 o) in
  Slice.elems h2 s = contents h o /\ Slice.wf h2 s /\
  (forall l', is_Some (h !! l') -> h2 !! l' = h !! l').
Proof.
  intros Hwf -> l h1 s h2.
  assert (forall l', is_Some (h !! l') -> h1 !! l' = h !! l') as Hfr1.
  { intros l' Hl'. unfold h1. rewrite lookup_insert_ne; [done|]. by apply fresh_ne. }
  assert (contents h1 o = contents h o) as Hc1.
  { apply contents_ext. intros l' Hl'. apply Hfr1. by apply (wfObject_alloc h o). }
  assert (length (contents h o) = len (entries o)) as Hlen
    by (by apply wf_elems_length).
  unfold h2. rewrite Hc1. split; [|split].
  - by apply copy_elems.
  - unfold Slice.copy. simpl. apply wf_insert_eq; [done|].
    rewrite Hlen, Nat.min_id, firstn_all2 by lia.
    rewrite length_app, length_drop. unfold Slice.backing. simpl.
    unfold h1. rewrite lookup_insert_eq. simpl. rewrite length_replicate. lia.
  - intros l' Hl'. unfold Slice.copy. simpl.
    rewrite lookup_insert_ne by (by apply fresh_ne). by apply Hfr1.
Qed.

(** [Clone] yields the same entries in storage that did not exist before *)
Lemma Clone_spec h o :
  wfObject h o ->
  exists h1 cl, Clone h o = Done (h1, cl) /\
    contents h1 cl = contents h o /\ wfObject h1 cl /\
    Length cl = Length o /\
    ptr (entries cl) = Some (fresh (dom h)) /\
    (forall l, is_Some (h !! l) -> h1 !! l = h !! l).
Proof.
  intros Hwf. unfold Clone, s_make.
  destruct (make_exact zeroEntry h (len (entries o))) as (-> & _ & _ & _). simpl.
  destruct (copy_fresh h o (len (entries o)) Hwf eq_refl) as (Hel & Hwf2 & Hfr).
  eexists _, _. split; [done|]. done.
Qed.

(** C10, as the code has it.  [NewObject] with a capacity [n] from [0] to
    what [makeslice] grants a slice of entries, or with no capacity,
    returns an empty container, of capacity [n]; with [n < 0] or [n]
    beyond that bound it returns nothing: the unguarded [make] panics. *)
Theorem NewObject_capacity h (n : Z) (rest : list Z) :
  (0 <= n <= Z.of_N makeslice_max ->
     exists h' o, NewObject h (n :: rest) = Done (h', o) /\
       Length o = 0 /\ contents h' o = [] /\ wfObject h' o /\
       cap (entries o) = Z.to_nat n) /\
  (n < 0 \/ Z.of_N makeslice_max < n ->
     NewObject h (n :: rest) = Panic "makeslice: cap out of range") /\
  (exists h' o, NewObject h [] = Done (h', o) /\
               Length o = 0 /\ contents h' o = [] /\ wfObject h' o).
Proof.
  assert (forall c, 0 <= c <= Z.of_N makeslice_max ->
    exists h' o,
      obind (Slice.make zeroEntry (Some (Z.of_N makeslice_max)) h 0 c)
            (fun p => Done (p.1, mkObject p.2)) = Done (h', o) /\
      Length o = 0 /\ contents h' o = [] /\ wfObject h' o /\
      cap (entries o) = Z.to_nat c) as Hok.
  { intros c Hc. rewrite make_bounded_Done by lia. simpl.
    eexists _, _. split; [done|]. split; [done|]. split; [done|].
    split; [|done]. apply wf_insert_eq; [lia | apply length_replicate]. }
  split; [|split].
  - intros Hn. by apply Hok.
  - intros Hn. unfold NewObject. rewrite make_Panic_cap; [done | lia | done].
  - destruct (Hok 0) as (h' & o & Hr & Hl & Hc & Hwf & _); [lia|].
    by exists h', o.
Qed.

(** a projection of the entries written into a fresh array of its own *)
Lemma project_fresh {A : Type} (zero : A) (f : Entry V -> A) h o
  (hh : gmap loc (list A)) :
  wfObject h o ->
  exists hh' s,
    obind (Slice.make zero None hh (Length o) (Length o)) (fun p =>
      obind (Slice.storeEach f p.1 p.2 0 (contents h o)) (fun hh' =>
        Done (hh', p.2))) = Done (hh', s) /\
    Slice.elems hh' s = f <$> contents h o /\
    Z.of_nat (len s) = Length o /\
    (exists l, ptr s = Some l /\ hh !! l = None) /\
    (forall l, is_Some (hh !! l) -> hh' !! l = hh !! l).
Proof.
  intros Hwf. unfold Length.
  destruct (make_exact zero hh (len (entries o))) as (-> & Hwf1 & Hnew & Hfr1). simpl.
  pose proof (wf_elems_length h (entries o) Hwf) as Hlen. fold (contents h o) in Hlen.
  destruct (storeEach_Done f (contents h o) _ _ 0 Hwf1 ltac:(simpl; lia))
    as (hh' & Hrun & Hel & Hwf' & Hfr).
  change (Z.of_nat 0) with 0 in Hrun. rewrite Hrun. simpl.
  exists hh', (mkSlice (Some (fresh (dom hh))) (len (entries o)) (len (entries o))).
  split; [done|]. split; [|split; [done|split; [eauto|]]].
  - rewrite Hel. simpl. rewrite drop_ge, app_nil_r; [done|].
    rewrite (wf_elems_length _ _ Hwf1). simpl. lia.
  - intros l Hl. rewrite Hfr; [by apply Hfr1|]. simpl.
    intros [= Heq]. by apply (fresh_ne hh l).
Qed.

(** C9. [Keys], [Values] and [Entries] each return a sequence in storage
    that did not exist before, of length [Length()], listing the keys, the
    values and the entries in stored order; whatever is later written
    through the returned sequence, the container's entries stay as they
    were.  (For [Keys] and [Values] the returned array has another element
    type and lives in another heap than the entries, which neither call
    takes as an output.) *)
Theorem accessors_fresh h o :
  wfObject h o ->
  (forall hk, exists hk' ks, Keys h o hk = Done (hk', ks) /\
     Slice.elems hk' ks = Key <$> contents h o /\
     Z.of_nat (len ks) = Length o /\
     (exists l, ptr ks = Some l /\ hk !! l = None) /\
     (forall l, is_Some (hk !! l) -> hk' !! l = hk !! l)) /\
  (forall hv, exists hv' vs, Values h o hv = Done (hv', vs) /\
     Slice.elems hv' vs = Value <$> contents h o /\
     Z.of_nat (len vs) = Length o /\
     (exists l, ptr vs = Some l /\ hv !! l = None) /\
     (forall l, is_Some (hv !! l) -> hv' !! l = hv !! l)) /\
  (exists h' ents, Entries h o = Done (h', ents) /\
     Slice.elems h' ents = contents h o /\
     Z.of_nat (len ents) = Length o /\
     (exists l, ptr ents = Some l /\ h !! l = None) /\
     contents h' o = contents h o /\
     forall ws, contents (Slice.applyWrites zeroEntry growslice_cap h' ents ws).1 o
                = contents h o).
Proof.
  intros Hwf. split; [|split].
  - intros hk. apply (project_fresh EmptyString Key h o hk Hwf).
  - intros hv. apply (project_fresh zeroValue Value h o hv Hwf).
  - unfold Entries, s_make.
    destruct (make_exact zeroEntry h (len (entries o))) as (-> & _ & Hnew & _). simpl.
    destruct (copy_fresh h o (len (entries o)) Hwf eq_refl) as (Hel & Hwf2 & Hfr).
    eexists _, _. split; [done|]. split; [done|]. split; [done|].
    split; [eauto|].
    assert (forall l, ptr (entries o) = Some l ->
              is_Some (h !! l) /\ Some (fresh (dom h)) <> Some l) as Hsep.
    { intros l Hl. pose proof (wfObject_alloc h o l Hwf Hl) as Ha.
      split; [done|]. intros [= Heq]. by apply (fresh_ne h l). }
    split.
    + apply contents_ext. intros l Hl. apply Hfr. by apply Hsep.
    + intros ws. apply contents_ext. intros l Hl. destruct (Hsep l Hl) as [Ha Hne].
      rewrite applyWrites_frame; [by apply Hfr | by rewrite Hfr | done].
Qed.

(** *** Mutations through one object leave other arrays alone *)

Lemma applyMutation_frame h o (m : mutation) :
  wfObject h o ->
  exists h' o', applyMutation h o m = Done (h', o') /\ wfObject h' o' /\
    (forall l, is_Some (h !! l) -> ptr (entries o) <> Some l ->
       h' !! l = h !! l /\ ptr (entries o') <> Some l).
Proof.
  intros Hwf. destruct m as [key value|key]; simpl.
  - destruct (keyAt_or_absent (contents h o) key) as [Habs|[p Hk]].
    + destruct (Set_absent h o key value Hwf Habs) as (h' & o' & ? & _ & ? & ? & _).
      by exists h', o'.
    + destruct (Set_present h o key value p Hwf Hk) as (h' & ? & _ & ? & Hfr & _).
      exists h', o. split; [done|]. split; [done|]. intros l _ Hne. split; [by apply Hfr | done].
  - destruct (keyAt_or_absent (contents h o) key) as [Habs|[p Hk]].
    + exists h, o. by rewrite (Delete_absent h o key Habs).
    + destruct (Delete_present h o key p Hwf Hk) as (h' & o' & ? & _ & ? & ? & _).
      by exists h', o'.
Qed.

Lemma applyMutations_frame (ms : list mutation) h o :
  wfObject h o ->
  exists h' o', applyMutations h o ms = Done (h', o') /\ wfObject h' o' /\
    (forall l, is_Some (h !! l) -> ptr (entries o) <> Some l ->
       h' !! l = h !! l /\ ptr (entries o') <> Some l).
Proof.
  revert h o. induction ms as [|m ms IH]; intros h o Hwf; simpl.
  - by exists h, o.
  - destruct (applyMutation_frame h o m Hwf) as (h1 & o1 & -> & Hwf1 & Hfr1). simpl.
    destruct (IH h1 o1 Hwf1) as (h2 & o2 & -> & Hwf2 & Hfr2).
    exists h2, o2. split; [done|]. split; [done|].
    intros l Hl Hne. destruct (Hfr1 l Hl Hne) as [Heq Hne1].
    destruct (Hfr2 l) as [Heq2 Hne2]; [by rewrite Heq | done |].
    split; [congruence | done].
Qed.

End ContainerFacts.

(** ** The codec *)

Section EncodingFacts.
Context {V : Type} `{GoValue V} `{GoRuntime}.
Implicit Types (h : gmap loc (list (Entry V))) (o : Object) (es : list (Entry V)).
Implicit Types (enc : jsontext.Encoder) (dec : jsontext.Decoder).

Lemma emit_emit enc ts1 ts2 :
  jsontext.emit (jsontext.emit enc ts1) ts2 = jsontext.emit enc (ts1 ++ ts2).
Proof. unfold jsontext.emit. simpl. by rewrite app_assoc. Qed.

Lemma marshalValue_emits value enc :
  (marshalValue value enc).1 = jsontext.emit enc (valueTokens value enc).
Proof. unfold marshalValue, valueTokens. by destruct (asOrderedMarshaler value). Qed.

Lemma WriteToken_cases enc t :
  (jsontext.WriteToken enc t = (jsontext.emit enc [t], None)) \/
  (exists err, jsontext.WriteToken enc t = (enc, Some err)).
Proof.
  unfold jsontext.WriteToken.
  destruct (jsontext.validate enc (jsontext.written enc) t); eauto.
Qed.

Lemma marshalEntries_spec es enc :
  exists ts,
    jsontext.written (marshalEntries es enc).1 = jsontext.written enc ++ ts /\
    ts `prefix_of` concat (memberChunks es enc) /\
    ((marshalEntries es enc).2 = None ->
       (marshalEntries es enc).1 = jsontext.emit enc (concat (memberChunks es enc))).
Proof.
  revert enc. induction es as [|entry es IH]; intros enc; simpl.
  - exists []. rewrite app_nil_r. split; [done|]. split; [done|].
    intros _. unfold jsontext.emit. destruct enc; simpl. by rewrite app_nil_r.
  - set (name := jsontext.String (Key entry)).
    destruct (WriteToken_cases enc name) as [->|[err ->]]; simpl.
    2:{ exists []. rewrite app_nil_r. split; [done|]. split; [|done].
        apply prefix_nil. }
    pose proof (marshalValue_emits (Value entry) (jsontext.emit enc [name])) as Hv.
    destruct (marshalValue (Value entry) (jsontext.emit enc [name])) as [enc2 [err|]];
      simpl in Hv; subst enc2.
    + exists (name :: valueTokens (Value entry) (jsontext.emit enc [name])).
      simpl. rewrite <- app_assoc. split; [done|]. split; [|done].
      apply prefix_cons, prefix_app_r. done.
    + rewrite emit_emit. simpl.
      destruct (IH (jsontext.emit enc
                      (name :: valueTokens (Value entry) (jsontext.emit enc [name]))))
        as (ts & Hw & Hpre & Hfull).
      exists ((name :: valueTokens (Value entry) (jsontext.emit enc [name])) ++ ts).
      split; [|split].
      * rewrite Hw. simpl. by rewrite <- !app_assoc.
      * simpl. apply prefix_cons. by apply prefix_app.
      * intros Hok. rewrite (Hfull Hok), emit_emit. done.
Qed.










End EncodingFacts.

Section DecodingFacts.
Context {V : Type} `{GoValue V} `{GoRuntime}.
Implicit Types (h : gmap loc (list (Entry V))) (o : Object) (es : list (Entry V)).
Implicit Types (enc : jsontext.Encoder) (dec stop : jsontext.Decoder).

Lemma TokenKind_quote t :
  jsontext.TokenKind t = "034"%char -> exists key, t = jsontext.String key.
Proof. destruct t as [|[]| | | | | |]; try discriminate. eauto. Qed.

Lemma TokenKind_begin t :
  jsontext.TokenKind t = "{"%char -> t = jsontext.BeginObject.
Proof. by destruct t as [|[]| | | | | |]. Qed.

Lemma advance_length n dec :
  length (jsontext.input (jsontext.advance n dec)) = (length (jsontext.input dec) - n)%nat.
Proof. unfold jsontext.advance. simpl. apply length_drop. Qed.

(** fuel above the number of pending tokens is never exhausted, and the
    result does not depend on it *)
Lemma decodeEntries_fuel fuel : forall fuel' h o dec,
  (length (jsontext.input dec) < fuel)%nat ->
  (length (jsontext.input dec) < fuel')%nat ->
  decodeEntries fuel h o dec = decodeEntries fuel' h o dec /\
  is_Some (decodeEntries fuel h o dec).
Proof.
  induction fuel as [|fuel IH]; intros fuel' h o dec Hf Hf'; [lia|].
  destruct fuel' as [|fuel']; [lia|]. simpl.
  destruct (Ascii.eqb (jsontext.PeekKind dec) "}"); [eauto|].
  unfold jsontext.ReadToken.
  destruct (jsontext.input dec) as [|t rest] eqn:Hin; [eauto|].
  destruct (negb (Ascii.eqb (jsontext.TokenKind t) "034")); [eauto|].
  destruct (UnmarshalDecode (jsontext.advance 1 dec)) as [err|[value n]]; [eauto|].
  apply IH; rewrite !advance_length, Hin; simpl in *; lia.
Qed.

Lemma decodeLoop_total h o dec : is_Some (decodeLoop h o dec).
Proof.
  unfold decodeLoop.
  apply (decodeEntries_fuel _ (S (length (jsontext.input dec))) h o dec); lia.
Qed.

Lemma decodeEntries_S fuel h o dec :
  decodeEntries (S fuel) h o dec =
  if Ascii.eqb (jsontext.PeekKind dec) "}" then Some (h, o, dec, None)
  else
    match jsontext.ReadToken dec with
    | (dec1, inl err) => Some (h, o, dec1, Some (Upstream err))
    | (dec1, inr tok) =>
        if negb (Ascii.eqb (jsontext.TokenKind tok) "034") then
          Some (h, o, dec1, Some (ErrExpectedStringKey (jsontext.TokenKind tok)))
        else
          match UnmarshalDecode dec1 with
          | inl err => Some (h, o, dec1, Some (Upstream err))
          | inr (value, n) =>
              decodeEntries fuel
                (s_append h (entries o) [mkEntry (jsontext.TokenString tok) value]).1
                (mkObject (s_append h (entries o) [mkEntry (jsontext.TokenString tok) value]).2)
                (jsontext.advance n dec1)
          end
    end.
Proof. reflexivity. Qed.

(** one round of the loop on a member *)
Lemma decodeLoop_member h o dec key toks value n :
  jsontext.input dec = jsontext.String key :: toks ->
  UnmarshalDecode (jsontext.advance 1 dec) = inr (value, n) ->
  decodeLoop h o dec =
  decodeLoop (s_append h (entries o) [mkEntry key value]).1
             (mkObject (s_append h (entries o) [mkEntry key value]).2)
             (jsontext.advance n (jsontext.advance 1 dec)).
Proof.
  intros Hin Hv. unfold decodeLoop at 1. rewrite decodeEntries_S.
  remember (length (jsontext.input dec)) as L eqn:HL.
  unfold jsontext.PeekKind, jsontext.ReadToken. rewrite Hin.
  cbn [jsontext.TokenKind jsontext.TokenString]. 
  change (Ascii.eqb "034" "}") with false.
  change (negb (Ascii.eqb "034" "034")) with false. cbv iota. rewrite Hv.
  apply decodeEntries_fuel; rewrite !advance_length; rewrite ?HL, Hin; simpl; lia.
Qed.

Lemma decodeLoop_members dec es stop :
  members dec es stop ->
  forall h o, exists h' o',
    decodeLoop h o dec = decodeLoop h' o' stop /\
    (wfObject h o -> wfObject h' o' /\ contents h' o' = contents h o ++ es).
Proof.
  induction 1 as [dec|dec key toks value n es stop Hin Hv _ IH]; intros h o.
  - exists h, o. split; [done|]. intros Hwf. by rewrite app_nil_r.
  - rewrite (decodeLoop_member h o dec key toks value n Hin Hv).
    destruct (IH (s_append h (entries o) [mkEntry key value]).1
                 (mkObject (s_append h (entries o) [mkEntry key value]).2))
      as (h' & o' & -> & Hrest).
    exists h', o'. split; [done|]. intros Hwf.
    destruct Hrest as [Hwf' Hc].
    { unfold wfObject. simpl. by apply append_wf. }
    split; [done|]. rewrite Hc. unfold contents at 1. simpl.
    unfold s_append. rewrite append_elems by done.
    by rewrite <- app_assoc.
Qed.

Lemma decodeLoop_halts h o stop r :
  halts stop r -> exists dec', decodeLoop h o stop = Some (h, o, dec', r) /\
    (r = None -> dec' = stop).
Proof.
  intros Hh. unfold decodeLoop. rewrite decodeEntries_S.
  destruct Hh as [dec Hp|dec Hp Hin|dec t rest Hin Hk Hq|dec key rest err Hin Hv].
  - rewrite Hp. change (Ascii.eqb "}" "}") with true. cbv iota. eauto.
  - rewrite (proj2 (Ascii.eqb_neq _ _) Hp).
    unfold jsontext.ReadToken. rewrite Hin. by eexists.
  - unfold jsontext.PeekKind, jsontext.ReadToken. rewrite Hin.
    rewrite (proj2 (Ascii.eqb_neq _ _) Hk), (proj2 (Ascii.eqb_neq _ _) Hq).
    cbn [negb]. by eexists.
  - unfold jsontext.PeekKind, jsontext.ReadToken. rewrite Hin.
    cbn [jsontext.TokenKind].
    change (Ascii.eqb "034" "}") with false.
    change (negb (Ascii.eqb "034" "034")) with false. cbv iota. rewrite Hv. by eexists.
Qed.

(** from any decoder state the loop reads some members and stops *)
Lemma scan_exists (m : nat) : forall dec,
  (length (jsontext.input dec) <= m)%nat ->
  exists es stop r, members dec es stop /\ halts stop r.
Proof.
  induction m as [|m IH]; intros dec Hlen.
  - destruct (decide (jsontext.PeekKind dec = "}"%char)) as [Hp|Hp].
    + exists [], dec, None. split; [constructor | by constructor].
    + exists [], dec, (Some (Upstream (jsontext.stopErr dec))).
      split; [constructor|]. apply halts_read; [done|].
      destruct (jsontext.input dec); [done | simpl in Hlen; lia].
  - destruct (decide (jsontext.PeekKind dec = "}"%char)) as [Hp|Hp].
    { exists [], dec, None. split; [constructor | by constructor]. }
    destruct (jsontext.input dec) as [|t rest] eqn:Hin.
    { exists [], dec, (Some (Upstream (jsontext.stopErr dec))).
      split; [constructor | by apply halts_read]. }
    assert (jsontext.TokenKind t <> "}"%char) as Hk
      by (unfold jsontext.PeekKind in Hp; by rewrite Hin in Hp).
    destruct (decide (jsontext.TokenKind t = "034"%char)) as [Hq|Hq].
    2:{ exists [], dec, (Some (ErrExpectedStringKey (jsontext.TokenKind t))).
        split; [constructor | by eapply halts_key]. }
    destruct (TokenKind_quote t Hq) as [key ->].
    destruct (UnmarshalDecode (jsontext.advance 1 dec)) as [err|[value n]] eqn:Hv.
    { exists [], dec, (Some (Upstream err)).
      split; [constructor | by eapply halts_value]. }
    destruct (IH (jsontext.advance n (jsontext.advance 1 dec))) as (es & stop & r & Hm & Hh).
    { rewrite !advance_length, Hin. simpl in *. lia. }
    exists (mkEntry key value :: es), stop, r. split; [|done].
    by eapply members_cons.
Qed.

Lemma contents_reset h o : contents h (resetEntries o) = [].
Proof. unfold contents, Slice.elems. simpl. apply take_0. Qed.

Lemma wfObject_reset h o : wfObject h o -> wfObject h (resetEntries o).
Proof. intros [Hle Hp]. split; simpl; [lia | done]. Qed.

Lemma UnmarshalJSONFrom_begin h o dec toks :
  jsontext.input dec = jsontext.BeginObject :: toks ->
  UnmarshalJSONFrom h o dec =
  match decodeLoop h (resetEntries o) (jsontext.advance 1 dec) with
  | Some (h', o', dec2, None) =>
      match jsontext.ReadToken dec2 with
      | (dec3, inl err) => Some (h', o', dec3, Some (Upstream err))
      | (dec3, inr _) => Some (h', o', dec3, None)
      end
  | r => r
  end.
Proof.
  intros Hin. unfold UnmarshalJSONFrom. unfold jsontext.ReadToken at 1.
  rewrite Hin. reflexivity.
Qed.

(** the run of [UnmarshalJSONFrom] on an input that opens an object *)
Lemma UnmarshalJSONFrom_members h o dec toks es stop r :
  jsontext.input dec = jsontext.BeginObject :: toks ->
  members (jsontext.advance 1 dec) es stop -> halts stop r ->
  exists h' o' dec',
    UnmarshalJSONFrom h o dec = Some (h', o', dec', closing stop r) /\
    (closing stop r = None -> dec' = jsontext.advance 1 stop) /\
    (wfObject h o -> wfObject h' o' /\ contents h' o' = es).
Proof.
  intros Hin Hm Hh. rewrite (UnmarshalJSONFrom_begin h o dec toks Hin).
  destruct (decodeLoop_members _ _ _ Hm h (resetEntries o)) as (h' & o' & -> & Hst).
  destruct (decodeLoop_halts h' o' stop r Hh) as (dec' & -> & Hstop).
  assert (wfObject h o -> wfObject h' o' /\ contents h' o' = es) as Hst'.
  { intros Hwf. destruct (Hst (wfObject_reset h o Hwf)) as [Hwf' Hc].
    by rewrite contents_reset in Hc. }
  destruct r as [err|]; simpl.
  - exists h', o', dec'. done.
  - rewrite (Hstop eq_refl). unfold jsontext.ReadToken.
    destruct (jsontext.input stop) as [|t rest]; eexists _, _, _; done.
Qed.

Lemma TokenKind_end t :
  jsontext.TokenKind t = "}"%char -> t = jsontext.EndObject.
Proof. by destruct t as [|[]| | | | | |]. Qed.

(** the three ways a run of [UnmarshalJSONFrom] can go *)
Lemma UnmarshalJSONFrom_run h o dec :
  (jsontext.input dec = [] /\
   UnmarshalJSONFrom h o dec =
     Some (h, resetEntries o, dec, Some (Upstream (jsontext.stopErr dec)))) \/
  (exists t rest, jsontext.input dec = t :: rest /\
     jsontext.TokenKind t <> "{"%char /\
     UnmarshalJSONFrom h o dec =
       Some (h, resetEntries o, jsontext.advance 1 dec,
             Some (ErrExpectedObjectStart (jsontext.TokenKind t)))) \/
  (exists toks es stop r h' o' dec',
     jsontext.input dec = jsontext.BeginObject :: toks /\
     members (jsontext.advance 1 dec) es stop /\ halts stop r /\
     UnmarshalJSONFrom h o dec = Some (h', o', dec', closing stop r) /\
     (closing stop r = None -> dec' = jsontext.advance 1 stop) /\
     (wfObject h o -> wfObject h' o' /\ contents h' o' = es)).
Proof.
  destruct (jsontext.input dec) as [|t rest] eqn:Hin.
  - left. split; [done|]. unfold UnmarshalJSONFrom, jsontext.ReadToken. by rewrite Hin.
  - right. destruct (decide (jsontext.TokenKind t = "{"%char)) as [Hk|Hk].
    + right. apply TokenKind_begin in Hk as ->.
      destruct (scan_exists _ (jsontext.advance 1 dec) (le_n _)) as (es & stop & r & Hm & Hh).
      destruct (UnmarshalJSONFrom_members h o dec rest es stop r Hin Hm Hh)
        as (h' & o' & dec' & Hrun & Hdec & Hst).
      exists rest, es, stop, r, h', o', dec'. done.
    + left. exists t, rest. split; [done|]. split; [done|].
      unfold UnmarshalJSONFrom, jsontext.ReadToken. rewrite Hin.
      by rewrite (proj2 (Ascii.eqb_neq _ _) Hk).
Qed.

Lemma UnmarshalJSONFrom_total h o dec : is_Some (UnmarshalJSONFrom h o dec).
Proof.
  destruct (UnmarshalJSONFrom_run h o dec)
    as [[_ ->]|[(t & rest & _ & _ & ->)|(? & ? & ? & ? & ? & ? & ? & _ & _ & _ & -> & _)]];
    eauto.
Qed.

(** C6. [UnmarshalJSONFrom] returns [ErrExpectedObjectStart], carrying the
    kind it saw, exactly when the first token read is not [BeginObject];
    it returns [ErrExpectedStringKey] exactly when, after the opening brace
    and any number of members, the loop has not reached the closing brace
    and the token read for the key is not a string. *)
Theorem UnmarshalJSONFrom_structural_errors h o dec :
  (forall k,
     (exists h' o' dec',
        UnmarshalJSONFrom h o dec = Some (h', o', dec', Some (ErrExpectedObjectStart k)))
     <-> (exists t rest, jsontext.input dec = t :: rest /\
            jsontext.TokenKind t = k /\ k <> "{"%char)) /\
  (forall k,
     (exists h' o' dec',
        UnmarshalJSONFrom h o dec = Some (h', o', dec', Some (ErrExpectedStringKey k)))
     <-> (exists toks es stop t rest,
            jsontext.input dec = jsontext.BeginObject :: toks /\
            members (jsontext.advance 1 dec) es stop /\
            jsontext.input stop = t :: rest /\
            jsontext.TokenKind t = k /\ k <> "}"%char /\ k <> "034"%char)).
Proof.
  split; intros k; split.
  - intros (h' & o' & dec' & Hrun).
    destruct (UnmarshalJSONFrom_run h o dec)
      as [[_ Hr]|[(t & rest & Hin & Hk & Hr)|
                  (toks & es & stop & r & h2 & o2 & dec2 & _ & _ & Hh & Hr & _)]];
      rewrite Hr in Hrun.
    + discriminate.
    + injection Hrun as _ _ _ <-. by exists t, rest.
    + injection Hrun as _ _ _ Hc. exfalso. destruct r as [err|]; simpl in Hc.
      * injection Hc as ->. inversion Hh.
      * by destruct (jsontext.input stop).
  - intros (t & rest & Hin & <- & Hk).
    exists h, (resetEntries o), (jsontext.advance 1 dec).
    unfold UnmarshalJSONFrom, jsontext.ReadToken. rewrite Hin.
    by rewrite (proj2 (Ascii.eqb_neq _ _) Hk).
  - intros (h' & o' & dec' & Hrun).
    destruct (UnmarshalJSONFrom_run h o dec)
      as [[_ Hr]|[(t & rest & Hin & Hk & Hr)|
                  (toks & es & stop & r & h2 & o2 & dec2 & Hin & Hm & Hh & Hr & _)]];
      rewrite Hr in Hrun; try discriminate.
    injection Hrun as _ _ _ Hc. destruct r as [err|]; simpl in Hc.
    + injection Hc as ->. inversion Hh as [| |? t rest Hs Hk Hq|]; subst.
      exists toks, es, stop, t, rest. done.
    + by destruct (jsontext.input stop).
  - intros (toks & es & stop & t & rest & Hin & Hm & Hs & <- & Hk & Hq).
    destruct (UnmarshalJSONFrom_members h o dec toks es stop _ Hin Hm
                (halts_key stop t rest Hs Hk Hq)) as (h' & o' & dec' & Hrun & _).
    by exists h', o', dec'.
Qed.

(** a successful run has read an opening brace, members, and the
    closing brace, and the members are the container's entries *)
Lemma UnmarshalJSONFrom_success h o dec h' o' dec' :
  wfObject h o ->
  UnmarshalJSONFrom h o dec = Some (h', o', dec', None) ->
  exists toks stop rest,
    jsontext.input dec = jsontext.BeginObject :: toks /\
    members (jsontext.advance 1 dec) (contents h' o') stop /\
    jsontext.input stop = jsontext.EndObject :: rest /\
    dec' = jsontext.advance 1 stop /\ wfObject h' o'.
Proof.
  intros Hwf Hrun.
  destruct (UnmarshalJSONFrom_run h o dec)
    as [[_ Hr]|[(t & rest & Hin & Hk & Hr)|
                (toks & es & stop & r & h2 & o2 & dec2 & Hin & Hm & Hh & Hr & Hd & Hst)]];
    rewrite Hr in Hrun; try discriminate.
  injection Hrun as <- <- <- Hc. destruct (Hst Hwf) as [Hwf2 Hes].
  destruct r as [err|]; [discriminate|]. simpl in Hc.
  inversion Hh as [? Hp| | |]; subst.
  unfold jsontext.PeekKind in Hp.
  destruct (jsontext.input stop) as [|t rest] eqn:Hs; [discriminate|].
  apply TokenKind_end in Hp as ->.
  exists toks, stop, rest. split; [done|]. split; [done|]. split; [done|].
  split; [apply Hd; unfold closing; by rewrite Hs | done].
Qed.

(** whatever its result, a run leaves a well-formed object whose entries
    are members read from the input *)
Lemma UnmarshalJSONFrom_entries h o dec h' o' dec' r :
  wfObject h o ->
  UnmarshalJSONFrom h o dec = Some (h', o', dec', r) ->
  wfObject h' o' /\
  (contents h' o' = [] \/
   exists stop, members (jsontext.advance 1 dec) (contents h' o') stop).
Proof.
  intros Hwf Hrun.
  destruct (UnmarshalJSONFrom_run h o dec)
    as [[_ Hr]|[(t & rest & Hin & Hk & Hr)|
                (toks & es & stop & r2 & h2 & o2 & dec2 & Hin & Hm & Hh & Hr & Hd & Hst)]];
    rewrite Hr in Hrun.
  - injection Hrun as <- <- _ _. split; [by apply wfObject_reset|].
    left. apply contents_reset.
  - injection Hrun as <- <- _ _. split; [by apply wfObject_reset|].
    left. apply contents_reset.
  - injection Hrun as <- <- _ _. destruct (Hst Hwf) as [Hwf2 Hes].
    split; [done|]. right. exists stop. by rewrite Hes.
Qed.

(** C7. Decoding checks no key for uniqueness.  A successful
    [UnmarshalJSONFrom] leaves in the container exactly the members read
    from the input, one entry each, in source order; and any sequence of
    members, repeated keys included, that is followed by the closing brace
    is decoded successfully into exactly those entries. *)
Theorem UnmarshalJSONFrom_keeps_duplicates h o dec :
  wfObject h o ->
  (forall h' o' dec',
     UnmarshalJSONFrom h o dec = Some (h', o', dec', None) ->
     exists toks stop rest,
       jsontext.input dec = jsontext.BeginObject :: toks /\
       members (jsontext.advance 1 dec) (contents h' o') stop /\
       jsontext.input stop = jsontext.EndObject :: rest /\
       dec' = jsontext.advance 1 stop /\
       Length o' = Z.of_nat (length (contents h' o'))) /\
  (forall toks es stop rest,
     jsontext.input dec = jsontext.BeginObject :: toks ->
     members (jsontext.advance 1 dec) es stop ->
     jsontext.input stop = jsontext.EndObject :: rest ->
     exists h' o',
       UnmarshalJSONFrom h o dec = Some (h', o', jsontext.advance 1 stop, None) /\
       contents h' o' = es /\ Length o' = Z.of_nat (length es)).
Proof.
  intros Hwf. split.
  - intros h' o' dec' Hrun.
    destruct (UnmarshalJSONFrom_success h o dec h' o' dec' Hwf Hrun)
      as (toks & stop & rest & Hin & Hm & Hs & Hd & Hwf').
    exists toks, stop, rest. split; [done|]. split; [done|]. split; [done|].
    split; [done | by apply Length_contents].
  - intros toks es stop rest Hin Hm Hs.
    assert (halts stop None) as Hh.
    { apply halts_end. unfold jsontext.PeekKind. by rewrite Hs. }
    destruct (UnmarshalJSONFrom_members h o dec toks es stop None Hin Hm Hh)
      as (h' & o' & dec' & Hrun & Hd & Hst).
    destruct (Hst Hwf) as [Hwf' Hes].
    assert (closing stop None = None) as Hc by (simpl; by rewrite Hs).
    rewrite Hc in Hrun. rewrite (Hd Hc) in Hrun.
    exists h', o'. split; [done|]. split; [done|].
    rewrite <- Hes. by apply Length_contents.
Qed.

End DecodingFacts.

(** ** Invariants of reachable states *)

Section Invariants.
Context {V : Type} `{GoValue V} `{GoRuntime}.
Implicit Types (h : gmap loc (list (Entry V))) (o : Object) (es : list (Entry V)).
Implicit Types (dec stop : jsontext.Decoder).

Lemma NewObject_inv h capacity h' o :
  NewObject h capacity = Done (h', o) -> wfObject h' o /\ contents h' o = [].
Proof.
  unfold NewObject.
  set (c := match capacity with c :: _ => c | [] => 0 end).
  destruct (decide (0 <= c <= Z.of_N makeslice_max)) as [Hc|Hc].
  - rewrite make_bounded_Done by lia. simpl. intros [= <- <-]. split; [|done].
    apply wf_insert_eq; [lia | apply length_replicate].
  - rewrite make_Panic_cap; [done | lia | lia].
Qed.

Lemma keysOf_absent es key : absent es key -> key ∉ keysOf es.
Proof.
  intros Habs Hin. unfold keysOf in Hin.
  apply list_elem_of_fmap in Hin as (e & -> & He). by apply (Habs e).
Qed.

Lemma keysOf_update es key value p :
  keyAt es key p -> keysOf (<[p := mkEntry key value]> es) = keysOf es.
Proof.
  intros [[e [Hp Hk]] _]. unfold keysOf. rewrite list_fmap_insert. simpl.
  apply list_insert_id. rewrite list_lookup_fmap, Hp. simpl. by rewrite Hk.
Qed.

Lemma keysOf_remove es p :
  NoDup (keysOf es) -> NoDup (keysOf (take p es ++ drop (S p) es)).
Proof.
  intros Hnd. unfold keysOf in *. rewrite fmap_app, fmap_take, fmap_drop.
  rewrite <- delete_take_drop. eapply sublist_NoDup; [done | apply sublist_delete].
Qed.

Lemma Set_keeps_unique h o key value h' o' :
  wfObject h o -> NoDup (keysOf (contents h o)) ->
  Set_ h o key value = Done (h', o') ->
  wfObject h' o' /\ NoDup (keysOf (contents h' o')).
Proof.
  intros Hwf Hnd Hrun.
  destruct (keyAt_or_absent (contents h o) key) as [Habs|[p Hk]].
  - destruct (Set_absent h o key value Hwf Habs) as (h2 & o2 & Hr & Hc & Hwf2 & _).
    rewrite Hr in Hrun. injection Hrun as <- <-. split; [done|].
    rewrite Hc. unfold keysOf. rewrite fmap_app. simpl.
    apply NoDup_app. split; [done|]. split; [|apply NoDup_singleton].
    intros k Hk Hk'. apply list_elem_of_singleton in Hk' as ->.
    by apply (keysOf_absent _ _ Habs).
  - destruct (Set_present h o key value p Hwf Hk) as (h2 & Hr & Hc & Hwf2 & _).
    rewrite Hr in Hrun. injection Hrun as <- <-. split; [done|].
    by rewrite Hc, keysOf_update.
Qed.

Lemma Delete_keeps_unique h o key h' o' :
  wfObject h o -> NoDup (keysOf (contents h o)) ->
  Delete h o key = Done (h', o') ->
  wfObject h' o' /\ NoDup (keysOf (contents h' o')).
Proof.
  intros Hwf Hnd Hrun.
  destruct (keyAt_or_absent (contents h o) key) as [Habs|[p Hk]].
  - rewrite (Delete_absent h o key Habs) in Hrun. by injection Hrun as <- <-.
  - destruct (Delete_present h o key p Hwf Hk) as (h2 & o2 & Hr & Hc & Hwf2 & _).
    rewrite Hr in Hrun. injection Hrun as <- <-. split; [done|].
    rewrite Hc. by apply keysOf_remove.
Qed.

Lemma step_keeps_wf allowed st st' :
  step allowed st st' -> wfObject st.1 st.2 -> wfObject st'.1 st'.2.
Proof.
  intros Hstep Hwf.
  destruct Hstep as [h o key value h' o' Hr|h o key h' o' Hr
                    |h o dec h' o' dec' r Hd Hr|h o h' o' Hr]; simpl in *.
  - destruct (applyMutation_frame h o (MSet key value) Hwf) as (h2 & o2 & Hr2 & Hwf2 & _).
    simpl in Hr2. rewrite Hr2 in Hr. by injection Hr as <- <-.
  - destruct (applyMutation_frame h o (MDelete key) Hwf) as (h2 & o2 & Hr2 & Hwf2 & _).
    simpl in Hr2. rewrite Hr2 in Hr. by injection Hr as <- <-.
  - by destruct (UnmarshalJSONFrom_entries h o dec h' o' dec' r Hwf Hr).
  - destruct (Clone_spec h o Hwf) as (h2 & cl & Hr2 & _ & Hwf2 & _).
    rewrite Hr2 in Hr. by injection Hr as <- <-.
Qed.

Lemma step_keeps_unique allowed st st' :
  (forall dec, allowed dec -> distinctNames dec) ->
  step allowed st st' ->
  wfObject st.1 st.2 -> NoDup (keysOf (contents st.1 st.2)) ->
  NoDup (keysOf (contents st'.1 st'.2)).
Proof.
  intros Hall Hstep Hwf Hnd.
  destruct Hstep as [h o key value h' o' Hr|h o key h' o' Hr
                    |h o dec h' o' dec' r Hd Hr|h o h' o' Hr]; simpl in *.
  - by destruct (Set_keeps_unique h o key value h' o' Hwf Hnd Hr).
  - by destruct (Delete_keeps_unique h o key h' o' Hwf Hnd Hr).
  - destruct (UnmarshalJSONFrom_entries h o dec h' o' dec' r Hwf Hr) as [_ [->|[stop Hm]]].
    + constructor.
    + by eapply (Hall dec Hd).
  - destruct (Clone_spec h o Hwf) as (h2 & cl & Hr2 & Hc & _).
    rewrite Hr2 in Hr. injection Hr as <- <-. by rewrite Hc.
Qed.

Lemma reachable_wf allowed st : reachable allowed st -> wfObject st.1 st.2.
Proof.
  induction 1 as [h capacity h' o Hnew|st st' _ IH Hstep].
  - by destruct (NewObject_inv h capacity h' o Hnew).
  - by apply (step_keeps_wf allowed st st').
Qed.

(** C5, as the code has it.  In every state reached from a new container
    by the public operations, [Length()] is the number of entries.  When
    the inputs decoded on the way have pairwise distinct member names, the
    state has at most one entry per key and the number of entries is the
    number of distinct keys. *)
Theorem reachable_unique_keys allowed st :
  reachable allowed st ->
  Length st.2 = Z.of_nat (length (contents st.1 st.2)) /\
  ((forall dec, allowed dec -> distinctNames dec) ->
   NoDup (keysOf (contents st.1 st.2)) /\
   length (contents st.1 st.2)
   = size (list_to_set (keysOf (contents st.1 st.2)) : gset string)).
Proof.
  intros Hreach. split.
  - apply Length_contents. by apply (reachable_wf allowed).
  - intros Hall.
    assert (NoDup (keysOf (contents st.1 st.2))) as Hnd.
    { induction Hreach as [h capacity h' o Hnew|st st' Hreach IH Hstep].
      - destruct (NewObject_inv h capacity h' o Hnew) as [_ Hc]. simpl.
        rewrite Hc. constructor.
      - apply (step_keeps_unique allowed st st' Hall Hstep); [|done].
        by apply (reachable_wf allowed). }
    split; [done|].
    rewrite size_list_to_set by done. unfold keysOf. by rewrite length_fmap.
Qed.

End Invariants.

(** ** Clones and round trips *)

Section WrapperFacts.
Context {V : Type} `{GoValue V} `{GoRuntime} `{JsonText}.
Implicit Types (h : gmap loc (list (Entry V))) (o : Object) (es : list (Entry V)).
Implicit Types (enc : jsontext.Encoder) (dec stop : jsontext.Decoder).

Lemma MarshalJSONTo_contents h o h' o' enc :
  contents h' o' = contents h o -> MarshalJSONTo h' o' enc = MarshalJSONTo h o enc.
Proof. intros Hc. unfold MarshalJSONTo. by rewrite Hc. Qed.

Lemma MarshalJSON_contents h o h' o' :
  contents h' o' = contents h o -> MarshalJSON h' o' = MarshalJSON h o.
Proof. intros Hc. unfold MarshalJSON. by rewrite (MarshalJSONTo_contents h o h' o'). Qed.

(** C8. [Clone] yields a container in storage that did not exist before,
    with the same [MarshalJSON] output as the original; whatever sequence
    of [Set] and [Delete] is then applied to the clone, the original's
    entries and its [MarshalJSON] output stay as they were, and the clone
    never comes to use the original's array. *)
Theorem Clone_independent h o :
  wfObject h o ->
  exists h1 cl, Clone h o = Done (h1, cl) /\
    MarshalJSON h1 cl = MarshalJSON h o /\
    contents h1 cl = contents h o /\
    (forall l, ptr (entries cl) = Some l -> h !! l = None) /\
    forall ms, exists h2 cl2,
      applyMutations h1 cl ms = Done (h2, cl2) /\
      contents h2 o = contents h o /\
      MarshalJSON h2 o = MarshalJSON h o /\
      (forall l, ptr (entries o) = Some l -> ptr (entries cl2) <> Some l).
Proof.
  intros Hwf.
  destruct (Clone_spec h o Hwf) as (h1 & cl & Hrun & Hc & Hwf1 & _ & Hp & Hfr).
  exists h1, cl. split; [done|]. split; [by apply MarshalJSON_contents|].
  split; [done|]. split.
  { intros l Hl. rewrite Hp in Hl. injection Hl as <-. apply fresh_lookup_None. }
  intros ms.
  destruct (applyMutations_frame ms h1 cl Hwf1) as (h2 & cl2 & Hrun2 & Hwf2 & Hfr2).
  exists h2, cl2. split; [done|].
  assert (forall l, ptr (entries o) = Some l ->
            h2 !! l = h !! l /\ ptr (entries cl2) <> Some l) as Hsep.
  { intros l Hl. pose proof (wfObject_alloc h o l Hwf Hl) as Ha.
    destruct (Hfr2 l) as [Heq Hne].
    - by rewrite Hfr.
    - rewrite Hp. intros [= Heq]. by apply (fresh_ne h l).
    - split; [|done]. rewrite Heq. by apply Hfr. }
  assert (contents h2 o = contents h o) as Hc2.
  { apply contents_ext. intros l Hl. by apply Hsep. }
  split; [done|]. split; [by apply MarshalJSON_contents|].
  intros l Hl. by apply Hsep.
Qed.


Lemma WriteToken_ok enc t enc' :
  jsontext.WriteToken enc t = (enc', None) -> enc' = jsontext.emit enc [t].
Proof.
  unfold jsontext.WriteToken.
  destruct (jsontext.validate enc (jsontext.written enc) t); [done|]. by intros [= <-].
Qed.





End WrapperFacts.

(** ** The package on concrete inputs *)

Module Concrete.
Import Fragment.

Lemma keyAt_findKeyIndex {V : Type} (es : list (Entry V)) key (p : nat) :
  findKeyIndex_from 0 es key = Z.of_nat p -> keyAt es key p.
Proof.
  intros Hfind. destruct (keyAt_or_absent es key) as [Habs|[q Hq]].
  - rewrite (findKeyIndex_from_absent es key 0 Habs) in Hfind. lia.
  - rewrite (findKeyIndex_from_keyAt es key q 0 Hq) in Hfind.
    by replace p with q by lia.
Qed.

Lemma wf_start : wfObject start.1 start.2.
Proof. vm_compute. split; [lia | reflexivity]. Qed.

Lemma wf_abc : wfObject abc.1 abc.2.
Proof. vm_compute. split; [lia | reflexivity]. Qed.


(** S1-S3 of the specification, on string values *)
Example marshal_in_insertion_order :
  MarshalJSON abc.1 abc.2 =
  inr ("{" ++ quoted "a" ++ ":" ++ quoted "x" ++ "," ++ quoted "b" ++ ":null,"
        ++ quoted "c" ++ ":true}" ++ newline)%string.
Proof. vm_compute. reflexivity. Qed.

Example update_then_delete :
  let st := after abc [MSet "b" (AString "y"); MDelete "a"] in
  contents st.1 st.2 = [mkEntry "b" (AString "y"); mkEntry "c" (ABool true)] /\
  Has st.1 st.2 "a" = false /\ Length st.2 = 2.
Proof. vm_compute. auto. Qed.

(** S6 of the specification: an array is refused with
    [ErrExpectedObjectStart], a number where a key is due with
    [ErrExpectedStringKey] *)
Example decode_array :
  exists h o dec, UnmarshalJSON start.1 start.2 "[1,2,3]" =
    Some (h, o, dec, Some (ErrExpectedObjectStart "["%char)).
Proof. vm_compute. eauto. Qed.

Example decode_number_key :
  exists h o dec,
    UnmarshalJSONFrom start.1 start.2
      (lenientDecoder [jsontext.BeginObject; jsontext.Number "1"; jsontext.Number "2";
                       jsontext.EndObject]) =
    Some (h, o, dec, Some (ErrExpectedStringKey "0"%char)).
Proof. vm_compute. eauto. Qed.

(** *** C1 *)


(** every write and every marshaller succeeds on [abc], so the whole
    sequence is written *)
Example MarshalJSONTo_accepts_abc :
  objectAccepted (contents abc.1 abc.2) lenientEncoder /\
  objectAccepted (contents abc.1 abc.2) NewEncoder /\
  jsontext.written (MarshalJSONTo abc.1 abc.2 lenientEncoder).1
  = [jsontext.BeginObject; jsontext.String "a"; jsontext.String "x";
     jsontext.String "b"; jsontext.Null; jsontext.String "c"; jsontext.Bool true;
     jsontext.EndObject].
Proof. vm_compute. repeat split. Qed.

(** *** C2 *)


(** the compact text does not come back as it went in either: the encoder
    ends the value with a newline; the text with that newline does *)
Example roundtrip_adds_newline :
  MarshalJSON (decoded start (NewDecoder compactText)).1
              (decoded start (NewDecoder compactText)).2 = inr encodedText /\
  encodedText <> compactText /\
  MarshalJSON (decoded start (NewDecoder encodedText)).1
              (decoded start (NewDecoder encodedText)).2 = inr encodedText.
Proof. vm_compute. split; [done|]. split; [discriminate | done]. Qed.


(** *** C3, C4 *)

Lemma Set_spec_witness :
  exists h' o', Set_ abc.1 abc.2 "b" (AString "y") = Done (h', o') /\
    contents h' o' !! 1%nat = Some (mkEntry "b" (AString "y")) /\
    contents h' o' !! 0%nat = contents abc.1 abc.2 !! 0%nat /\
    Length o' = Length abc.2.
Proof.
  destruct (Set_spec abc.1 abc.2 "b" (AString "y"))
    as (h' & o' & Hrun & _ & Hpresent & _).
  { vm_compute. split; [lia | reflexivity]. }
  destruct (Hpresent 1%nat) as ((Hp & Hothers & _) & Hlen).
  { apply keyAt_findKeyIndex. vm_compute. reflexivity. }
  exists h', o'. split; [exact Hrun|]. split; [exact Hp|].
  split; [apply Hothers; lia | exact Hlen].
Defined.

Lemma Delete_spec_witness :
  exists h' o', Delete abc.1 abc.2 "b" = Done (h', o') /\
    contents h' o' !! 0%nat = contents abc.1 abc.2 !! 0%nat /\
    contents h' o' !! 1%nat = contents abc.1 abc.2 !! 2%nat /\
    Length o' = Length abc.2 - 1.
Proof.
  destruct (Delete_spec abc.1 abc.2 "b") as (h' & o' & Hrun & _ & Hpresent & _).
  { vm_compute. split; [lia | reflexivity]. }
  destruct (Hpresent 1%nat) as ((Hbefore & Hafter & _) & Hlen).
  { apply keyAt_findKeyIndex. vm_compute. reflexivity. }
  exists h', o'. split; [exact Hrun|]. split; [apply Hbefore; lia|].
  split; [apply Hafter; lia | exact Hlen].
Defined.

(** C3 as stated fails on the container decoded from an object that has
    the key [a] twice: [a] is present at position 1, and [Set] of [a]
    leaves the value at position 1 and changes the entry at position 0. *)
Lemma Set_misses_later_occurrence :
  let st := decoded start twiceA in
  let st' := after st [MSet "a" (AString "z")] in
  reachable (fun _ => True) st /\ wfObject st.1 st.2 /\
  contents st.1 st.2 !! 1%nat = Some (mkEntry "a" (ABool true)) /\
  Set_ st.1 st.2 "a" (AString "z") = Done st' /\
  contents st'.1 st'.2 !! 1%nat = Some (mkEntry "a" (ABool true)) /\
  contents st'.1 st'.2 !! 0%nat <> contents st.1 st.2 !! 0%nat /\
  ~ overwrittenAt (contents st.1 st.2) (contents st'.1 st'.2) "a" (AString "z") 1.
Proof.
  split.
  { eapply reachable_step; [eapply (reachable_new _ ∅ []); vm_compute; reflexivity|].
    eapply (step_Unmarshal _ start.1 start.2 twiceA); [done|].
    vm_compute. reflexivity. }
  split; [vm_compute; split; [lia | reflexivity]|].
  split; [vm_compute; reflexivity|]. split; [vm_compute; reflexivity|].
  split; [vm_compute; reflexivity|]. split; [vm_compute; discriminate|].
  intros [Hp _]. vm_compute in Hp. discriminate.
Qed.

(** C4 as stated fails on the same container: [a] is present at position
    1, and [Delete] of [a] removes the entry at position 0, so that the
    entry before position 1 does not stay. *)
Lemma Delete_misses_later_occurrence :
  let st := decoded start twiceA in
  let st' := after st [MDelete "a"] in
  reachable (fun _ => True) st /\ wfObject st.1 st.2 /\
  contents st.1 st.2 !! 1%nat = Some (mkEntry "a" (ABool true)) /\
  Delete st.1 st.2 "a" = Done st' /\
  contents st'.1 st'.2 = [mkEntry "a" (ABool true)] /\
  contents st'.1 st'.2 !! 0%nat <> contents st.1 st.2 !! 0%nat /\
  ~ removedAt (contents st.1 st.2) (contents st'.1 st'.2) 1.
Proof.
  split.
  { eapply reachable_step; [eapply (reachable_new _ ∅ []); vm_compute; reflexivity|].
    eapply (step_Unmarshal _ start.1 start.2 twiceA); [done|].
    vm_compute. reflexivity. }
  split; [vm_compute; split; [lia | reflexivity]|].
  split; [vm_compute; reflexivity|]. split; [vm_compute; reflexivity|].
  split; [vm_compute; reflexivity|]. split; [vm_compute; discriminate|].
  intros [Hbefore _]. specialize (Hbefore 0%nat ltac:(lia)).
  vm_compute in Hbefore. discriminate.
Qed.

(** *** C5 *)

Lemma reachable_start allowed : reachable (V := any) allowed start.
Proof.
  vm_compute. eapply (reachable_new allowed ∅ []). vm_compute. reflexivity.
Qed.

Lemma reachable_applyMutations (allowed : jsontext.Decoder -> Prop)
  (ms : list mutation) : forall (h : gmap loc (list (Entry any))) o h2 o2,
  wfObject h o -> reachable allowed (h, o) ->
  applyMutations h o ms = Done (h2, o2) -> reachable allowed (h2, o2).
Proof.
  induction ms as [|m ms IH]; intros h o h2 o2 Hwf Hreach Hrun; simpl in Hrun.
  - by injection Hrun as <- <-.
  - destruct (applyMutation_frame h o m Hwf) as (h1 & o1 & Hrun1 & Hwf1 & _).
    rewrite Hrun1 in Hrun. simpl in Hrun.
    apply (IH h1 o1 h2 o2 Hwf1); [|done].
    eapply reachable_step; [exact Hreach|].
    destruct m; simpl in Hrun1; [by eapply step_Set | by eapply step_Delete].
Qed.

Lemma reachable_mutations (allowed : jsontext.Decoder -> Prop)
  (ms : list mutation) (st : gmap loc (list (Entry any)) * Object) :
  wfObject st.1 st.2 -> reachable allowed st -> reachable allowed (after st ms).
Proof.
  destruct st as [h o]. intros Hwf Hreach. unfold after. simpl in *.
  destruct (applyMutations_frame ms h o Hwf) as (h2 & o2 & Hrun & _).
  rewrite Hrun. by apply (reachable_applyMutations allowed ms h o).
Qed.

(** C5 as stated fails: decoding an object with a repeated key, through a
    decoder that allows it, leaves two entries with that key; the length
    is two, the number of distinct keys one. *)
Lemma decoding_duplicates_breaks_uniqueness :
  let st := decoded start twiceA in
  reachable (fun _ => True) st /\
  keysOf (contents st.1 st.2) = ["a"; "a"]%string /\
  ~ NoDup (keysOf (contents st.1 st.2)) /\
  Length st.2 = 2 /\
  size (list_to_set (keysOf (contents st.1 st.2)) : gset string) = 1%nat.
Proof.
  split.
  { eapply reachable_step; [apply (reachable_start (fun _ => True))|].
    eapply (step_Unmarshal _ start.1 start.2 twiceA); [done|].
    vm_compute. reflexivity. }
  vm_compute. split; [done|]. split; [|done].
  intros Hnd. apply NoDup_cons in Hnd as [Hin _]. apply Hin. by left.
Qed.

(** the names of [{"name":"test"}] are pairwise distinct *)
Lemma distinctNames_compactText : distinctNames (V := any) (NewDecoder compactText).
Proof.
  intros es stop Hm.
  inversion Hm as [|? key toks value n es1 ? Hin Hv Hm1]; subst; [constructor|].
  vm_compute in Hin. injection Hin as <- <-.
  vm_compute in Hv. injection Hv as <- <-.
  inversion Hm1 as [|? key2 toks2 value2 n2 es2 ? Hin2 Hv2 Hm2]; subst.
  - apply NoDup_singleton.
  - vm_compute in Hin2. discriminate.
Qed.

(** three calls of [Set], then a decoding *)
Lemma reachable_unique_keys_witness :
  let st := decoded abc (NewDecoder compactText) in
  Length st.2 = Z.of_nat (length (contents st.1 st.2)) /\
  NoDup (keysOf (contents st.1 st.2)) /\
  length (contents st.1 st.2)
  = size (list_to_set (keysOf (contents st.1 st.2)) : gset string).
Proof.
  destruct (reachable_unique_keys distinctNames (decoded abc (NewDecoder compactText)))
    as [Hlen Hunique].
  - eapply (reachable_step distinctNames abc).
    + apply (reachable_mutations distinctNames _ start).
      * vm_compute. split; [lia | reflexivity].
      * vm_compute. eapply (reachable_new distinctNames ∅ []). vm_compute. reflexivity.
    + eapply (step_Unmarshal distinctNames abc.1 abc.2 (NewDecoder compactText)).
      * exact distinctNames_compactText.
      * vm_compute. reflexivity.
  - split; [exact Hlen | apply Hunique; intros dec Hdec; exact Hdec].
Defined.

(** on a container that holds a key twice, [Set] and [Delete] act on the
    first occurrence *)
Example first_occurrence_wins :
  let st := decoded start twiceA in
  contents (after st [MSet "a" (AString "z")]).1 (after st [MSet "a" (AString "z")]).2
    = [mkEntry "a" (AString "z"); mkEntry "a" (ABool true)] /\
  contents (after st [MDelete "a"]).1 (after st [MDelete "a"]).2
    = [mkEntry "a" (ABool true)].
Proof. vm_compute. done. Qed.

(** *** C7 *)

Lemma UnmarshalJSONFrom_keeps_duplicates_witness :
  exists h' o',
    UnmarshalJSONFrom start.1 start.2 twiceA =
      Some (h', o', jsontext.mkDecoder [] "EOF" jsontext.invalidKind, None) /\
    contents h' o' = [mkEntry "a" ANil; mkEntry "a" (ABool true)] /\
    Length o' = 2.
Proof.
  destruct (UnmarshalJSONFrom_keeps_duplicates start.1 start.2 twiceA) as [_ Hall].
  { vm_compute. split; [lia | reflexivity]. }
  apply (Hall [jsontext.String "a"; jsontext.Null; jsontext.String "a";
               jsontext.Bool true; jsontext.EndObject]
              [mkEntry "a" ANil; mkEntry "a" (ABool true)]
              (lenientDecoder [jsontext.EndObject]) []).
  - reflexivity.
  - eapply members_cons; [reflexivity | reflexivity |].
    eapply members_cons; [reflexivity | reflexivity |].
    apply members_nil.
  - reflexivity.
Defined.

(** *** C8, C9 *)

(** S5 of the specification *)
Lemma Clone_independent_witness :
  exists h1 cl h2 cl2,
    Clone abc.1 abc.2 = Done (h1, cl) /\
    MarshalJSON h1 cl = MarshalJSON abc.1 abc.2 /\
    applyMutations h1 cl [MSet "b" (AString "y"); MDelete "c"; MSet "d" ANil]
      = Done (h2, cl2) /\
    contents h2 abc.2 = contents abc.1 abc.2 /\
    MarshalJSON h2 abc.2 = MarshalJSON abc.1 abc.2.
Proof.
  destruct (Clone_independent abc.1 abc.2) as (h1 & cl & Hrun & Hm & _ & _ & Hms).
  { vm_compute. split; [lia | reflexivity]. }
  destruct (Hms [MSet "b" (AString "y"); MDelete "c"; MSet "d" ANil])
    as (h2 & cl2 & Hrun2 & Hc & Hm2 & _).
  exists h1, cl, h2, cl2. split; [exact Hrun|]. split; [exact Hm|].
  split; [exact Hrun2|]. split; [exact Hc | exact Hm2].
Defined.

Lemma accessors_fresh_witness :
  exists hk ks h' ents,
    Keys abc.1 abc.2 ∅ = Done (hk, ks) /\
    Slice.elems hk ks = ["a"; "b"; "c"]%string /\
    Entries abc.1 abc.2 = Done (h', ents) /\
    contents (Slice.applyWrites zeroEntry growslice_cap h' ents
                [Slice.WStore 0 (mkEntry "x" AChan)]).1 abc.2
    = contents abc.1 abc.2.
Proof.
  destruct (accessors_fresh abc.1 abc.2) as (Hkeys & _ & Hentries).
  { vm_compute. split; [lia | reflexivity]. }
  destruct (Hkeys ∅) as (hk & ks & Hrun & Hel & _).
  destruct Hentries as (h' & ents & Hrun' & _ & _ & _ & _ & Hwrites).
  exists hk, ks, h', ents. split; [exact Hrun|]. split; [exact Hel|].
  split; [exact Hrun' | apply Hwrites].
Defined.

(** *** C10 *)

(** C10 as stated fails: a capacity of 2^62 is not negative, and
    [NewObject] panics on it. *)
Lemma NewObject_huge_capacity_panics :
  0 <= 4611686018427387904 /\
  NewObject (V := any) ∅ [4611686018427387904] = Panic "makeslice: cap out of range".
Proof. split; [lia | vm_compute; reflexivity]. Qed.

End Concrete.

(** * Further properties of the package *)

(** ** The entry sequence as a list *)

Section EntryListFacts.
Context {V : Type}.
Implicit Types (es : list (Entry V)) (key : string) (value : V).

Lemma absent_cons e es key :
  absent (e :: es) key <-> Key e <> key /\ absent es key.
Proof.
  unfold absent. split.
  - intros Ha. split; [apply Ha; by left | intros e' He'; apply Ha; by right].
  - intros [Hne Ha] e' He'. apply elem_of_cons in He' as [->|He']; [done | by apply Ha].
Qed.

Lemma keyAt_head e es key : Key e = key -> keyAt (e :: es) key 0.
Proof. intros Hk. split; [by exists e | intros; lia]. Qed.

Lemma keyAt_tail e es key p :
  Key e <> key -> keyAt (e :: es) key p -> exists q, p = S q /\ keyAt es key q.
Proof.
  intros Hne [[e' [Hp Hk]] Hfirst]. destruct p as [|q]; simpl in Hp.
  - injection Hp as <-. done.
  - exists q. split; [done|]. split; [by exists e'|].
    intros j e2 Hj He2. apply (Hfirst (S j) e2); [lia | done].
Qed.

Lemma setEntry_keyAt es key value p :
  keyAt es key p -> setEntry es key value = <[p := mkEntry key value]> es.
Proof.
  revert p. induction es as [|e es IH]; intros p Hk.
  - destruct Hk as [[e [Hp _]] _]. by rewrite lookup_nil in Hp.
  - simpl. destruct (String.eqb (Key e) key) eqn:E.
    + apply String.eqb_eq in E.
      rewrite (keyAt_unique _ _ _ _ Hk (keyAt_head e es key E)). simpl. by rewrite E.
    + apply String.eqb_neq in E. destruct (keyAt_tail e es key p E Hk) as (q & -> & Hq).
      simpl. by rewrite (IH q Hq).
Qed.

Lemma setEntry_absent es key value :
  absent es key -> setEntry es key value = es ++ [mkEntry key value].
Proof.
  induction es as [|e es IH]; intros Ha; [done|]. simpl.
  apply absent_cons in Ha as [Hne Ha].
  rewrite (proj2 (String.eqb_neq _ _) Hne). by rewrite IH.
Qed.

Lemma deleteEntry_keyAt es key p :
  keyAt es key p -> deleteEntry es key = take p es ++ drop (S p) es.
Proof.
  revert p. induction es as [|e es IH]; intros p Hk.
  - destruct Hk as [[e [Hp _]] _]. by rewrite lookup_nil in Hp.
  - simpl. destruct (String.eqb (Key e) key) eqn:E.
    + apply String.eqb_eq in E.
      by rewrite (keyAt_unique _ _ _ _ Hk (keyAt_head e es key E)).
    + apply String.eqb_neq in E. destruct (keyAt_tail e es key p E Hk) as (q & -> & Hq).
      simpl. by rewrite (IH q Hq).
Qed.

Lemma deleteEntry_absent es key : absent es key -> deleteEntry es key = es.
Proof.
  induction es as [|e es IH]; intros Ha; [done|]. simpl.
  apply absent_cons in Ha as [Hne Ha].
  rewrite (proj2 (String.eqb_neq _ _) Hne). by rewrite IH.
Qed.

Lemma getEntry_keyAt es key p e :
  keyAt es key p -> es !! p = Some e -> getEntry es key = Some (Value e).
Proof.
  revert p. induction es as [|e0 es IH]; intros p Hk Hp.
  - by rewrite lookup_nil in Hp.
  - simpl. destruct (String.eqb (Key e0) key) eqn:E.
    + apply String.eqb_eq in E.
      rewrite (keyAt_unique _ _ _ _ Hk (keyAt_head e0 es key E)) in Hp.
      simpl in Hp. by injection Hp as <-.
    + apply String.eqb_neq in E. destruct (keyAt_tail e0 es key p E Hk) as (q & -> & Hq).
      by apply (IH q).
Qed.

Lemma getEntry_absent es key : absent es key <-> getEntry es key = None.
Proof.
  induction es as [|e es IH]; simpl.
  - split; [done|]. intros _ e He. by apply elem_of_nil in He.
  - rewrite absent_cons. destruct (String.eqb (Key e) key) eqn:E.
    + apply String.eqb_eq in E. split; [by intros [? _] | done].
    + apply String.eqb_neq in E. rewrite IH. tauto.
Qed.

(** lookups after an update *)
Lemma getEntry_setEntry_eq es key value : getEntry (setEntry es key value) key = Some value.
Proof.
  induction es as [|e es IH]; simpl.
  - by rewrite String.eqb_refl.
  - destruct (String.eqb (Key e) key) eqn:E; simpl; by rewrite E.
Qed.

Lemma getEntry_setEntry_ne es key key' value :
  key' <> key -> getEntry (setEntry es key value) key' = getEntry es key'.
Proof.
  intros Hne. induction es as [|e es IH]; simpl.
  - by rewrite (proj2 (String.eqb_neq key key')).
  - destruct (String.eqb (Key e) key) eqn:E; simpl.
    + apply String.eqb_eq in E. rewrite E.
      by rewrite (proj2 (String.eqb_neq key key')).
    + destruct (String.eqb (Key e) key'); [done | exact IH].
Qed.

Lemma getEntry_deleteEntry_ne es key key' :
  key' <> key -> getEntry (deleteEntry es key) key' = getEntry es key'.
Proof.
  intros Hne. induction es as [|e es IH]; simpl; [done|].
  destruct (String.eqb (Key e) key) eqn:E; simpl.
  - apply String.eqb_eq in E. rewrite E.
    by rewrite (proj2 (String.eqb_neq key key')).
  - destruct (String.eqb (Key e) key'); [done | exact IH].
Qed.

Lemma setEntry_setEntry es key v1 v2 :
  setEntry (setEntry es key v1) key v2 = setEntry es key v2.
Proof.
  induction es as [|e es IH]; simpl.
  - by rewrite String.eqb_refl.
  - destruct (String.eqb (Key e) key) eqn:E; simpl; rewrite E; [done | by rewrite IH].
Qed.

Lemma keysOf_setEntry es key value :
  keysOf (setEntry es key value) =
  if decide (key ∈ keysOf es) then keysOf es else keysOf es ++ [key].
Proof.
  destruct (keyAt_or_absent es key) as [Ha|[p Hk]].
  - rewrite (setEntry_absent es key value Ha).
    rewrite decide_False by (by apply keysOf_absent).
    unfold keysOf. by rewrite fmap_app.
  - rewrite (setEntry_keyAt es key value p Hk), (keysOf_update es key value p Hk).
    rewrite decide_True; [done|]. destruct Hk as [[e [Hp <-]] _].
    unfold keysOf. apply list_elem_of_fmap. exists e. split; [done|].
    apply list_elem_of_lookup. eauto.
Qed.

End EntryListFacts.

(** ** Lookup and update *)

Section LookupFacts.
Context {V : Type} `{GoValue V} `{GoRuntime}.
Implicit Types (h : gmap loc (list (Entry V))) (o : Object) (es : list (Entry V)).
Implicit Types (key : string) (value : V).

Lemma contents_length_le h o : (length (contents h o) <= len (entries o))%nat.
Proof. unfold contents, Slice.elems. rewrite length_take. lia. Qed.

(** X1. [findKeyIndex] returns the first position that holds the key, a valid
    index below [Length()], or [-1] when no entry holds it. *)
Theorem findKeyIndex_first h o key :
  (findKeyIndex h o key = -1 /\ absent (contents h o) key) \/
  (exists p, findKeyIndex h o key = Z.of_nat p /\ keyAt (contents h o) key p /\
             Z.of_nat p < Length o).
Proof.
  destruct (keyAt_or_absent (contents h o) key) as [Ha|[p Hk]].
  - left. split; [by apply findKeyIndex_absent | done].
  - right. exists p. split; [by apply findKeyIndex_keyAt|]. split; [done|].
    destruct Hk as [[e [Hp _]] _]. apply lookup_lt_Some in Hp.
    pose proof (contents_length_le h o). unfold Length. lia.
Qed.

(** the heap operations compute the list functions *)
Lemma Get_getEntry h o key :
  Get h o key = Done (match getEntry (contents h o) key with
                      | Some v => (v, true)
                      | None => (zeroValue, false)
                      end).
Proof.
  unfold Get. destruct (keyAt_or_absent (contents h o) key) as [Ha|[p Hk]].
  - rewrite (findKeyIndex_absent h o key Ha).
    by rewrite (proj1 (getEntry_absent _ _) Ha).
  - rewrite (findKeyIndex_keyAt h o key p Hk).
    rewrite (proj2 (Z.leb_le 0 _)) by lia.
    pose proof Hk as [[e [Hp _]] _].
    unfold s_index. rewrite (index_Done zeroEntry h (entries o) p e Hp). simpl.
    by rewrite (getEntry_keyAt _ _ p e Hk Hp).
Qed.

Lemma Has_getEntry h o key :
  Has h o key = bool_decide (is_Some (getEntry (contents h o) key)).
Proof.
  unfold Has. destruct (keyAt_or_absent (contents h o) key) as [Ha|[p Hk]].
  - rewrite (findKeyIndex_absent h o key Ha).
    rewrite (proj1 (getEntry_absent _ _) Ha). symmetry. apply bool_decide_eq_false.
    by intros [? ?].
  - rewrite (findKeyIndex_keyAt h o key p Hk).
    pose proof Hk as [[e [Hp _]] _].
    rewrite (getEntry_keyAt _ _ p e Hk Hp). rewrite bool_decide_eq_true_2 by eauto.
    apply Z.leb_le. lia.
Qed.

Lemma Set_setEntry h o key value :
  wfObject h o ->
  exists h' o', Set_ h o key value = Done (h', o') /\
    contents h' o' = setEntry (contents h o) key value /\ wfObject h' o'.
Proof.
  intros Hwf. destruct (keyAt_or_absent (contents h o) key) as [Ha|[p Hk]].
  - destruct (Set_absent h o key value Hwf Ha) as (h' & o' & Hr & Hc & Hwf' & _).
    exists h', o'. by rewrite (setEntry_absent _ _ _ Ha).
  - destruct (Set_present h o key value p Hwf Hk) as (h' & Hr & Hc & Hwf' & _).
    exists h', o. by rewrite (setEntry_keyAt _ _ _ p Hk).
Qed.

Lemma Delete_deleteEntry h o key :
  wfObject h o ->
  exists h' o', Delete h o key = Done (h', o') /\
    contents h' o' = deleteEntry (contents h o) key /\ wfObject h' o'.
Proof.
  intros Hwf. destruct (keyAt_or_absent (contents h o) key) as [Ha|[p Hk]].
  - exists h, o. rewrite (Delete_absent h o key Ha).
    by rewrite (deleteEntry_absent _ _ Ha).
  - destruct (Delete_present h o key p Hwf Hk) as (h' & o' & Hr & Hc & Hwf' & _).
    exists h', o'. by rewrite (deleteEntry_keyAt _ _ p Hk).
Qed.

(** X2. [Get] never panics.  It returns the value of the first entry holding
    the key together with [true], or the zero value and [false] when no
    entry holds it; [Has] is that flag. *)
Theorem Get_first_or_zero h o key :
  (absent (contents h o) key /\
   Get h o key = Done (zeroValue, false) /\ Has h o key = false) \/
  (exists p e, keyAt (contents h o) key p /\ contents h o !! p = Some e /\
     Get h o key = Done (Value e, true) /\ Has h o key = true).
Proof.
  rewrite Get_getEntry, Has_getEntry.
  destruct (keyAt_or_absent (contents h o) key) as [Ha|[p Hk]].
  - left. split; [done|]. by rewrite (proj1 (getEntry_absent _ _) Ha).
  - right. pose proof Hk as [[e [Hp _]] _]. exists p, e.
    by rewrite (getEntry_keyAt _ _ p e Hk Hp).
Qed.

(** X3. After [Set(key, value)], [Get(key)] returns [value] and [true], and
    [Get] and [Has] of every other key answer as before. *)
Theorem Get_after_Set h o key value :
  wfObject h o ->
  exists h' o', Set_ h o key value = Done (h', o') /\
    Get h' o' key = Done (value, true) /\ Has h' o' key = true /\
    forall key', key' <> key ->
      Get h' o' key' = Get h o key' /\ Has h' o' key' = Has h o key'.
Proof.
  intros Hwf. destruct (Set_setEntry h o key value Hwf) as (h' & o' & Hr & Hc & _).
  exists h', o'. split; [done|]. rewrite !Get_getEntry, !Has_getEntry, Hc.
  rewrite getEntry_setEntry_eq. split; [done|]. split; [done|].
  intros key' Hne. rewrite !Get_getEntry, !Has_getEntry, Hc.
  by rewrite (getEntry_setEntry_ne _ _ _ _ Hne).
Qed.

(** X4. Setting a key twice leaves the entries a single [Set] of the second
    value leaves; the second [Set] works in place, on the same header. *)
Theorem Set_twice h o key v1 v2 :
  wfObject h o ->
  exists h1 o1 h2 h3 o3,
    Set_ h o key v1 = Done (h1, o1) /\
    Set_ h1 o1 key v2 = Done (h2, o1) /\
    Set_ h o key v2 = Done (h3, o3) /\
    contents h2 o1 = contents h3 o3 /\
    (v1 = v2 -> contents h2 o1 = contents h1 o1).
Proof.
  intros Hwf.
  destruct (Set_setEntry h o key v1 Hwf) as (h1 & o1 & Hr1 & Hc1 & Hwf1).
  destruct (Set_setEntry h o key v2 Hwf) as (h3 & o3 & Hr3 & Hc3 & _).
  assert (exists p, keyAt (contents h1 o1) key p) as [p Hk].
  { destruct (keyAt_or_absent (contents h1 o1) key) as [Ha|Hk]; [|done].
    apply getEntry_absent in Ha. by rewrite Hc1, getEntry_setEntry_eq in Ha. }
  destruct (Set_present h1 o1 key v2 p Hwf1 Hk) as (h2 & Hr2 & Hc2 & _).
  exists h1, o1, h2, h3, o3. split; [done|]. split; [done|]. split; [done|].
  assert (contents h2 o1 = setEntry (contents h o) key v2) as Hc.
  { rewrite Hc2, <- (setEntry_keyAt _ _ _ p Hk), Hc1. apply setEntry_setEntry. }
  split; [by rewrite Hc, Hc3|]. intros <-. by rewrite Hc, Hc1.
Qed.

End LookupFacts.

(** ** Deletion, insertion order and maps *)

Section OrderFacts.
Context {V : Type} `{GoValue V} `{GoRuntime}.
Implicit Types (h : gmap loc (list (Entry V))) (o : Object) (es : list (Entry V)).
Implicit Types (key : string) (value : V) (kvs : list (string * V)).

Lemma getEntry_is_Some es key :
  is_Some (getEntry es key) <-> exists q, keysOf es !! q = Some key.
Proof.
  rewrite <- not_eq_None_Some, <- getEntry_absent. split.
  - intros Hna. destruct (keyAt_or_absent es key) as [Ha|[p [[e [Hp Hk]] _]]]; [done|].
    exists p. unfold keysOf. by rewrite list_lookup_fmap, Hp, <- Hk.
  - intros [q Hq] Ha. apply (keysOf_absent es key Ha).
    apply list_elem_of_lookup. eauto.
Qed.

Lemma getEntry_deleteEntry_eq es key :
  is_Some (getEntry (deleteEntry es key) key) <->
  exists p q, (p < q)%nat /\ keysOf es !! p = Some key /\ keysOf es !! q = Some key.
Proof.
  induction es as [|e es IH]; simpl.
  - split; [by intros [? ?] | by intros (p & q & _ & Hp & _)].
  - destruct (String.eqb (Key e) key) eqn:E.
    + apply String.eqb_eq in E. rewrite getEntry_is_Some. split.
      * intros [q Hq]. exists 0%nat, (S q). simpl. rewrite E. split; [lia | done].
      * intros (p & q & Hlt & _ & Hq). destruct q as [|q]; [lia|]. by exists q.
    + simpl. rewrite E, IH. apply String.eqb_neq in E. split.
      * intros (p & q & Hlt & Hp & Hq). exists (S p), (S q). split; [lia | done].
      * intros (p & q & Hlt & Hp & Hq).
        destruct p as [|p]; simpl in Hp; [congruence|].
        destruct q as [|q]; [lia|]. exists p, q. split; [lia | done].
Qed.

(** X5. [Delete(key)] leaves [Get] and [Has] of every other key as they were.
    It removes one entry, the first with that key: afterwards [Has(key)]
    is still true exactly when the key occurred twice, and is false, with
    [Get(key)] the zero value, when keys are pairwise distinct. *)
Theorem Delete_then_lookup h o key :
  wfObject h o ->
  exists h' o', Delete h o key = Done (h', o') /\
    (forall key', key' <> key ->
       Get h' o' key' = Get h o key' /\ Has h' o' key' = Has h o key') /\
    (Has h' o' key = true <->
       exists p q, (p < q)%nat /\ keysOf (contents h o) !! p = Some key /\
                   keysOf (contents h o) !! q = Some key) /\
    (NoDup (keysOf (contents h o)) ->
       Has h' o' key = false /\ Get h' o' key = Done (zeroValue, false)).
Proof.
  intros Hwf. destruct (Delete_deleteEntry h o key Hwf) as (h' & o' & Hr & Hc & _).
  exists h', o'. split; [done|]. split; [|split].
  - intros key' Hne. rewrite !Get_getEntry, !Has_getEntry, Hc.
    by rewrite (getEntry_deleteEntry_ne _ _ _ Hne).
  - rewrite Has_getEntry, Hc, bool_decide_eq_true. apply getEntry_deleteEntry_eq.
  - intros Hnd.
    assert (getEntry (deleteEntry (contents h o) key) key = None) as Hnone.
    { apply eq_None_not_Some. rewrite getEntry_deleteEntry_eq.
      intros (p & q & Hlt & Hp & Hq).
      pose proof (NoDup_lookup _ p q key Hnd Hp Hq). lia. }
    by rewrite Get_getEntry, Has_getEntry, Hc, Hnone.
Qed.

(** *** A sequence of [Set] *)

Lemma setEach_contents kvs : forall h o,
  wfObject h o ->
  exists h' o', setEach h o kvs = Done (h', o') /\
    contents h' o' = foldl (fun es kv => setEntry es kv.1 kv.2) (contents h o) kvs /\
    wfObject h' o'.
Proof.
  induction kvs as [|kv kvs IH]; intros h o Hwf; simpl.
  - by exists h, o.
  - destruct (Set_setEntry h o kv.1 kv.2 Hwf) as (h1 & o1 & -> & Hc1 & Hwf1). simpl.
    destruct (IH h1 o1 Hwf1) as (h' & o' & Hr & Hc & Hwf').
    exists h', o'. by rewrite Hc, Hc1.
Qed.

Lemma keysOf_foldl_setEntry kvs : forall es,
  keysOf (foldl (fun es kv => setEntry es kv.1 kv.2) es kvs) =
  keysOf es ++ filter (fun k => k ∉ keysOf es) (firstKeys kvs.*1).
Proof.
  induction kvs as [|[k v] kvs IH]; intros es; simpl.
  - by rewrite app_nil_r.
  - rewrite IH, keysOf_setEntry. rewrite filter_cons. simpl.
    destruct (decide (k ∈ keysOf es)) as [Hin|Hnin].
    + rewrite decide_False by (by intros Hn). f_equal.
      rewrite list_filter_filter. apply list_filter_iff. intros k'. split.
      * intros Hk'. split; [done|]. by intros ->.
      * by intros [? _].
    + rewrite decide_True by done. rewrite <- app_assoc. simpl. do 2 f_equal.
      rewrite list_filter_filter. apply list_filter_iff. intros k'.
      rewrite not_elem_of_app, list_elem_of_singleton. tauto.
Qed.

Lemma filter_all {A : Type} (P : A -> Prop) `{!forall x, Decision (P x)} (l : list A) :
  (forall x, x ∈ l -> P x) -> filter P l = l.
Proof.
  induction l as [|x l IH]; intros Hall; [done|].
  rewrite filter_cons_True by (apply Hall; by left).
  f_equal. apply IH. intros y Hy. apply Hall. by right.
Qed.

Lemma firstKeys_NoDup (ks : list string) : NoDup (firstKeys ks).
Proof.
  induction ks as [|k ks IH]; simpl; [constructor|].
  apply NoDup_cons. split.
  - rewrite list_elem_of_filter. by intros [? _].
  - by apply NoDup_filter.
Qed.

Lemma getEntry_foldl_setEntry kvs : forall es (m : gmap string V),
  (forall k, m !! k = getEntry es k) ->
  forall k, foldl (fun m kv => <[kv.1 := kv.2]> m) m kvs !! k =
            getEntry (foldl (fun es kv => setEntry es kv.1 kv.2) es kvs) k.
Proof.
  induction kvs as [|[k0 v0] kvs IH]; intros es m Hm k; simpl; [done|].
  apply IH. intros k'. destruct (decide (k' = k0)) as [->|Hne].
  - by rewrite lookup_insert_eq, getEntry_setEntry_eq.
  - by rewrite lookup_insert_ne, getEntry_setEntry_ne.
Qed.

(** X6. Starting from an empty container, a sequence of [Set(k_i, v_i)] leaves
    the keys in the order of their first occurrence, each once, and for
    every key the value assigned to it last: [Get] answers as a plain map
    assigned the same pairs does. *)
Theorem Set_sequence_order h o kvs :
  wfObject h o -> contents h o = [] ->
  exists h' o', setEach h o kvs = Done (h', o') /\
    keysOf (contents h' o') = firstKeys kvs.*1 /\
    NoDup (keysOf (contents h' o')) /\
    Length o' = Z.of_nat (length (firstKeys kvs.*1)) /\
    forall key, Get h' o' key =
      Done (match assignAll kvs !! key with
            | Some v => (v, true)
            | None => (zeroValue, false)
            end).
Proof.
  intros Hwf Hempty.
  destruct (setEach_contents kvs h o Hwf) as (h' & o' & Hr & Hc & Hwf').
  rewrite Hempty in Hc.
  assert (keysOf (contents h' o') = firstKeys kvs.*1) as Hkeys.
  { rewrite Hc, keysOf_foldl_setEntry. simpl. apply filter_all.
    intros k _. apply not_elem_of_nil. }
  exists h', o'. split; [done|]. split; [done|].
  split; [rewrite Hkeys; apply firstKeys_NoDup|]. split.
  - rewrite (Length_contents h' o' Hwf'). unfold keysOf in Hkeys.
    by rewrite <- Hkeys, length_fmap.
  - intros key. rewrite Get_getEntry, Hc. unfold assignAll.
    by rewrite (getEntry_foldl_setEntry kvs [] ∅).
Qed.

End OrderFacts.

(** ** Maps, iteration and storage *)

Section MapFacts.
Context {V : Type} `{GoValue V} `{GoRuntime}.
Implicit Types (h : gmap loc (list (Entry V))) (o : Object) (es : list (Entry V)).
Implicit Types (key : string) (value : V) (kvs : list (string * V)).

Lemma absent_keysOf es key : absent es key <-> key ∉ keysOf es.
Proof.
  split; [apply keysOf_absent|]. intros Hnin e He Hk. apply Hnin.
  unfold keysOf. apply list_elem_of_fmap. by exists e.
Qed.

Lemma toMap_last es key :
  (absent es key /\
   foldl (fun m entry => <[Key entry := Value entry]> m) (∅ : gmap string V) es !! key
   = None) \/
  (exists p e, es !! p = Some e /\ Key e = key /\
     (forall j e', (p < j)%nat -> es !! j = Some e' -> Key e' <> key) /\
     foldl (fun m entry => <[Key entry := Value entry]> m) (∅ : gmap string V) es !! key
     = Some (Value e)).
Proof.
  induction es as [|x es IH] using rev_ind.
  - left. split; [|done]. intros e He. by apply elem_of_nil in He.
  - rewrite foldl_app. simpl. destruct (decide (Key x = key)) as [Hx|Hx].
    + right. exists (length es), x. split; [apply list_lookup_middle; done|].
      split; [done|]. split.
      * intros j e' Hj He'. apply lookup_lt_Some in He'.
        rewrite length_app in He'. simpl in He'. lia.
      * by rewrite Hx, lookup_insert_eq.
    + rewrite lookup_insert_ne by done. destruct IH as [[Ha Hn]|(p & e & Hp & Hk & Hlast & Hs)].
      * left. split; [|done]. intros e He.
        apply elem_of_app in He as [He|He]; [by apply Ha|].
        by apply list_elem_of_singleton in He as ->.
      * right. exists p, e. split; [by apply lookup_app_l_Some|].
        split; [done|]. split; [|done]. intros j e' Hj He'.
        apply lookup_app_Some in He' as [He'|[Hge He']]; [by apply (Hlast j)|].
        apply list_lookup_singleton_Some in He' as [_ <-]. done.
Qed.

(** X7. [ToMap] keeps for each key the value of the last entry holding it,
    where [Get] returns that of the first; with pairwise distinct keys the
    map answers every key as [Get] does. *)
Theorem ToMap_last_value h o :
  (forall key,
     (absent (contents h o) key /\ ToMap h o !! key = None) \/
     (exists p e, contents h o !! p = Some e /\ Key e = key /\
        (forall j e', (p < j)%nat -> contents h o !! j = Some e' -> Key e' <> key) /\
        ToMap h o !! key = Some (Value e))) /\
  (NoDup (keysOf (contents h o)) ->
   forall key, Get h o key =
     Done (match ToMap h o !! key with
           | Some v => (v, true)
           | None => (zeroValue, false)
           end)).
Proof.
  split; [intros key; apply toMap_last|].
  intros Hnd key. rewrite Get_getEntry. unfold ToMap.
  destruct (toMap_last (contents h o) key) as [[Ha ->]|(p & e & Hp & Hk & _ & ->)].
  - by rewrite (proj1 (getEntry_absent _ _) Ha).
  - by rewrite (getEntry_keyAt _ _ p e (keyAt_NoDup _ _ _ _ Hnd Hp Hk) Hp).
Qed.

(** *** [FromMap] *)

Lemma foldl_setEntry_fresh kvs : forall es,
  NoDup (keysOf es ++ kvs.*1) ->
  foldl (fun es kv => setEntry es kv.1 kv.2) es kvs = es ++ (toEntry <$> kvs).
Proof.
  induction kvs as [|[k v] kvs IH]; intros es Hnd; simpl.
  - by rewrite app_nil_r.
  - assert (absent es k) as Ha.
    { apply absent_keysOf. apply NoDup_app in Hnd as (_ & Hdis & _).
      intros Hin. apply (Hdis k Hin). by left. }
    rewrite (setEntry_absent es k v Ha), IH.
    + by rewrite <- app_assoc.
    + unfold keysOf. rewrite fmap_app, <- app_assoc. done.
Qed.

Lemma getEntry_list_to_map kvs key :
  getEntry (toEntry <$> kvs) key = (list_to_map kvs : gmap string V) !! key.
Proof.
  induction kvs as [|[k v] kvs IH]; simpl; [done|].
  destruct (String.eqb k key) eqn:E.
  - apply String.eqb_eq in E as ->. by rewrite lookup_insert_eq.
  - apply String.eqb_neq in E. by rewrite lookup_insert_ne.
Qed.

Lemma Set_keeps_array h o key value h' o' :
  (len (entries o) < cap (entries o))%nat ->
  Set_ h o key value = Done (h', o') ->
  ptr (entries o') = ptr (entries o) /\ cap (entries o') = cap (entries o) /\
  (len (entries o') <= S (len (entries o)))%nat.
Proof.
  intros Hroom. unfold Set_. destruct (0 <=? findKeyIndex h o key).
  - destruct (s_index h (entries o) (findKeyIndex h o key)) as [cell|]; [|done]. simpl.
    destruct (Slice.store h (entries o) (findKeyIndex h o key) _) as [h1|]; [|done].
    simpl. intros [= <- <-]. split; [done|]. split; [done | lia].
  - intros [= <- <-]. simpl. unfold s_append, Slice.append. simpl.
    rewrite (proj2 (Nat.leb_le _ _)) by lia.
    destruct (ptr (entries o)); simpl; (split; [done|]; split; [done | lia]).
Qed.

Lemma setEach_keeps_array kvs : forall h o h' o',
  (len (entries o) + length kvs <= cap (entries o))%nat ->
  setEach h o kvs = Done (h', o') ->
  ptr (entries o') = ptr (entries o) /\ cap (entries o') = cap (entries o).
Proof.
  induction kvs as [|kv kvs IH]; intros h o h' o' Hroom Hrun; simpl in *.
  - by injection Hrun as <- <-.
  - destruct (Set_ h o kv.1 kv.2) as [[h1 o1]|] eqn:Hset; [|done]. simpl in Hrun.
    destruct (Set_keeps_array h o kv.1 kv.2 h1 o1 ltac:(lia) Hset) as (Hp & Hc & Hl).
    destruct (IH h1 o1 h' o' ltac:(lia) Hrun) as [Hp' Hc'].
    split; congruence.
Qed.


(** X9. [FromMap] panics only on a map with more entries than [makeslice]
    grants a slice of entries, in the unguarded [make] of [NewObject].
    Otherwise, whatever order the iteration over the map takes, the
    container holds the entries of the map in that order, one per key; its
    length is the size of the map, [ToMap] gives the map back, and the
    array allocated at the start, of exactly that capacity, is the one it
    ends with. *)
Theorem FromMap_any_order h (m : gmap string V) (order : list (string * V)) :
  order ≡ₚ map_to_list m ->
  (Z.of_nat (size m) <= Z.of_N makeslice_max ->
   exists h' o', FromMap h m order = Done (h', o') /\
     contents h' o' = toEntry <$> order /\
     Length o' = Z.of_nat (size m) /\
     ToMap h' o' = m /\
     ptr (entries o') = Some (fresh (dom h)) /\
     cap (entries o') = size m) /\
  (Z.of_N makeslice_max < Z.of_nat (size m) ->
   FromMap h m order = Panic "makeslice: cap out of range").
Proof.
  intros Hperm. split.
  2:{ intros Hbig. unfold FromMap, NewObject.
      rewrite make_Panic_cap; [done | lia | lia]. }
  intros Hfits. unfold FromMap, NewObject.
  rewrite make_bounded_Done by lia. simpl. rewrite Nat2Z.id.
  set (h0 := <[fresh (dom h) := replicate (size m) zeroEntry]> h).
  set (o0 := mkObject (mkSlice (Some (fresh (dom h))) 0 (size m))).
  assert (wfObject h0 o0) as Hwf0
    by (apply wf_insert_eq; [lia | apply length_replicate]).
  assert (length order = size m) as Hlen
    by (by rewrite Hperm, length_map_to_list).
  assert (NoDup order.*1) as Hnd
    by (rewrite Hperm; apply NoDup_fst_map_to_list).
  destruct (setEach_contents order h0 o0 Hwf0) as (h' & o' & Hr & Hc & Hwf').
  change (contents h0 o0) with (@nil (Entry V)) in Hc.
  rewrite foldl_setEntry_fresh in Hc by done. simpl in Hc.
  destruct (setEach_keeps_array order h0 o0 h' o' ltac:(simpl; lia) Hr) as [Hp Hcap].
  exists h', o'. split; [done|]. split; [done|]. split; [|split; [|done]].
  - rewrite (Length_contents h' o' Hwf'), Hc, length_fmap. by rewrite Hlen.
  - apply map_eq. intros key.
    assert (NoDup (keysOf (contents h' o'))) as Hnd'.
    { rewrite Hc. unfold keysOf. rewrite <- list_fmap_compose. exact Hnd. }
    unfold ToMap.
    destruct (toMap_last (contents h' o') key) as [[Ha ->]|(p & e & Hp' & Hk & _ & ->)].
    + apply getEntry_absent in Ha. rewrite Hc, getEntry_list_to_map in Ha.
      rewrite <- Ha. by rewrite (list_to_map_proper _ _ Hnd Hperm), list_to_map_to_list.
    + pose proof (getEntry_keyAt _ _ p e (keyAt_NoDup _ _ _ _ Hnd' Hp' Hk) Hp') as Hg.
      rewrite Hc, getEntry_list_to_map in Hg.
      rewrite <- Hg. by rewrite (list_to_map_proper _ _ Hnd Hperm), list_to_map_to_list.
Qed.

(** *** [ForEach] *)

Lemma zip_projections es :
  zip (Key <$> es) (Value <$> es) = (fun e => (Key e, Value e)) <$> es.
Proof. induction es as [|e es IH]; csimpl; [done | by f_equal]. Qed.

Lemma index_elems h (s0 : slice) (i : nat) e :
  Slice.elems h s0 !! i = Some e -> s_index h s0 (Z.of_nat i) = Done e.
Proof. apply index_Done. Qed.

Lemma rangeEntries_rule {St : Type} (s0 : slice) (fn : callback St)
  (I : nat -> gmap loc (list (Entry V)) * Object * St -> Prop) :
  (forall i st, I i st -> Slice.wf st.1.1 s0) ->
  (forall i st e, I i st -> Slice.elems st.1.1 s0 !! i = Some e ->
     exists st', fn (Key e) (Value e) st = Done st' /\ I (S i) st') ->
  forall rounds i st, (i + rounds = len s0)%nat -> I i st ->
    exists st', rangeEntries s0 fn i rounds st = Done st' /\ I (len s0) st'.
Proof.
  intros Hwf Hfn. induction rounds as [|rounds IH]; intros i st Hi HI; simpl.
  - exists st. split; [done|]. by replace (len s0) with i by lia.
  - pose proof (wf_elems_length _ _ (Hwf i st HI)) as Hlen.
    destruct (lookup_lt_is_Some_2 (Slice.elems st.1.1 s0) i ltac:(lia)) as [e He].
    rewrite (index_elems _ _ _ _ He). simpl.
    destruct (Hfn i st e HI He) as (st1 & -> & HI1). simpl.
    apply IH; [lia | done].
Qed.

Lemma ForEach_onState {St : Type} h o (g : string -> V -> St -> St) (s : St) :
  wfObject h o ->
  exists st', ForEach h o (onState g) s = Done st' /\
    st' = (h, o, foldl (fun acc kv => g kv.1 kv.2 acc) s
                       (take (len (entries o))
                             ((fun e => (Key e, Value e)) <$> contents h o))).
Proof.
  intros Hwf. unfold ForEach.
  apply (rangeEntries_rule (entries o) (onState g)
           (fun i st => st = (h, o, foldl (fun acc kv => g kv.1 kv.2 acc) s
                                (take i ((fun e => (Key e, Value e)) <$> contents h o)))));
    [| |done|done].
  - by intros i st ->.
  - intros i st e -> He. simpl in He. eexists. split; [done|]. unfold onState. simpl.
    do 2 f_equal.
    rewrite (take_S_r _ i (Key e, Value e)), foldl_app; [done|].
    rewrite list_lookup_fmap. unfold contents. by rewrite He.
Qed.

(** X10. [ForEach] runs as many rounds as the container has entries at the
    call.  Round [i] hands the callback the entry in cell [i] of the array
    the container had at the call, as the heap stands when the round
    comes: a property [I] that holds at the start, ensures that this array
    stays allocated, and is carried by the callback from each round to the
    next, holds at the end, and [ForEach] does not panic. *)
Theorem ForEach_rule {St : Type} h o (fn : callback St) (s : St)
  (I : nat -> gmap loc (list (Entry V)) * Object * St -> Prop) :
  I 0%nat (h, o, s) ->
  (forall i st, I i st -> Slice.wf st.1.1 (entries o)) ->
  (forall i st e, I i st -> contents st.1.1 o !! i = Some e ->
     exists st', fn (Key e) (Value e) st = Done st' /\ I (S i) st') ->
  exists st', ForEach h o fn s = Done st' /\ I (len (entries o)) st'.
Proof.
  intros Hstart Hwf Hfn. unfold ForEach.
  by apply (rangeEntries_rule (entries o) fn I Hwf Hfn).
Qed.

(** X11. With a callback that leaves the container alone, [ForEach] calls it
    once per entry, in stored order, with the keys and values that
    [Keys()] and [Values()] return at the same positions, and leaves heap
    and container as they were. *)
Theorem ForEach_visits_in_order h o :
  wfObject h o ->
  forall hk hv, exists hk' ks hv' vs,
    Keys h o hk = Done (hk', ks) /\ Values h o hv = Done (hv', vs) /\
    length (zip (Slice.elems hk' ks) (Slice.elems hv' vs)) = length (contents h o) /\
    forall (St : Type) (g : string -> V -> St -> St) (s : St),
      ForEach h o (onState g) s =
      Done (h, o, foldl (fun acc kv => g kv.1 kv.2 acc) s
                        (zip (Slice.elems hk' ks) (Slice.elems hv' vs))).
Proof.
  intros Hwf hk hv.
  destruct (project_fresh EmptyString Key h o hk Hwf) as (hk' & ks & Hrk & Hek & _).
  destruct (project_fresh zeroValue Value h o hv Hwf) as (hv' & vs & Hrv & Hev & _).
  exists hk', ks, hv', vs. split; [exact Hrk|]. split; [exact Hrv|].
  rewrite Hek, Hev, zip_projections. split; [by rewrite length_fmap|].
  intros St g s.
  pose proof (wf_elems_length h (entries o) Hwf) as Hlen. fold (contents h o) in Hlen.
  destruct (ForEach_onState h o g s Hwf) as [st' [Hrun HI]].
  rewrite Hrun, HI. by rewrite take_ge by (rewrite length_fmap; lia).
Qed.

(** *** The cell a deletion vacates *)

(** X12. [Delete] shortens the slice but does not clear the cell it vacates:
    the array position just past the new end still holds the entry that
    was last, so the value stored there stays referenced. *)
Theorem Delete_keeps_vacated_cell h o key p :
  wfObject h o -> keyAt (contents h o) key p ->
  exists h' o', Delete h o key = Done (h', o') /\
    S (len (entries o')) = len (entries o) /\
    Slice.backing h' (entries o') !! len (entries o')
    = contents h o !! len (entries o').
Proof.
  intros Hwf Hk. pose proof Hk as [[e [Hp _]] _].
  pose proof (elems_lookup_lt _ _ _ _ Hp) as Hlt. pose proof Hwf as [Hle Hptr].
  unfold Delete. rewrite (findKeyIndex_keyAt h o key p Hk).
  rewrite (proj2 (Z.leb_le 0 _)) by lia.
  rewrite slice_to_Done by lia. simpl.
  replace (Z.of_nat p + 1) with (Z.of_nat (S p)) by lia.
  rewrite elems_from_Done by lia. simpl.
  eexists _, _. split; [done|]. unfold s_append, Slice.append. simpl.
  pose proof (wf_elems_length h (entries o) Hwf) as Hel.
  pose proof (wf_backing_length h (entries o) Hwf) as Hbl.
  rewrite length_drop, Hel.
  rewrite (proj2 (Nat.leb_le _ _)) by lia.
  destruct (ptr (entries o)) as [l|] eqn:Hl; simpl.
  2:{ simpl in Hptr. lia. }
  split; [lia|].
  unfold Slice.backing at 1. simpl. rewrite lookup_insert_eq. simpl.
  assert (Slice.backing h (mkSlice (Some l) p (cap (entries o)))
          = Slice.backing h (entries o)) as ->
    by (unfold Slice.backing; simpl; by rewrite Hl).
  set (arr := Slice.backing h (entries o)) in *.
  assert (length (take p arr) = p) as Htl by (rewrite length_take; lia).
  rewrite lookup_app_r by lia. rewrite Htl.
  rewrite lookup_app_r by (rewrite length_drop, Hel; lia).
  rewrite length_drop, Hel, lookup_drop.
  unfold contents, Slice.elems. fold arr. rewrite lookup_take_lt by lia.
  f_equal. lia.
Qed.

End MapFacts.

(** ** Decoding, further *)

Section DecodeFacts.
Context {V : Type} `{GoValue V} `{GoRuntime}.
Implicit Types (h : gmap loc (list (Entry V))) (o : Object) (es : list (Entry V)).
Implicit Types (enc : jsontext.Encoder) (dec : jsontext.Decoder).

(** what the loop reads and how it ends does not depend on the container *)
Lemma decodeEntries_reads fuel : forall h1 o1 h2 o2 dec,
  match decodeEntries fuel h1 o1 dec, decodeEntries fuel h2 o2 dec with
  | Some (_, _, d1, r1), Some (_, _, d2, r2) => d1 = d2 /\ r1 = r2
  | None, None => True
  | _, _ => False
  end.
Proof.
  induction fuel as [|fuel IH]; intros h1 o1 h2 o2 dec; [done|].
  rewrite !decodeEntries_S.
  destruct (Ascii.eqb (jsontext.PeekKind dec) "}"); [done|].
  destruct (jsontext.ReadToken dec) as [dec1 [err|tok]]; [done|].
  destruct (negb (Ascii.eqb (jsontext.TokenKind tok) "034")); [done|].
  destruct (UnmarshalDecode dec1) as [err|[value n]]; [done|].
  apply IH.
Qed.

Lemma UnmarshalJSONFrom_reads h1 o1 h2 o2 dec h1' o1' d1 r1 h2' o2' d2 r2 :
  UnmarshalJSONFrom h1 o1 dec = Some (h1', o1', d1, r1) ->
  UnmarshalJSONFrom h2 o2 dec = Some (h2', o2', d2, r2) ->
  d1 = d2 /\ r1 = r2.
Proof.
  unfold UnmarshalJSONFrom.
  destruct (jsontext.ReadToken dec) as [dec1 [err|tok]].
  { intros [= _ _ <- <-] [= _ _ <- <-]. done. }
  destruct (negb (Ascii.eqb (jsontext.TokenKind tok) "{")).
  { intros [= _ _ <- <-] [= _ _ <- <-]. done. }
  pose proof (decodeEntries_reads (S (length (jsontext.input dec1)))
                h1 (resetEntries o1) h2 (resetEntries o2) dec1) as Hsame.
  destruct (decodeEntries _ h1 _ dec1) as [[[[ha oa] da] ra]|];
    destruct (decodeEntries _ h2 _ dec1) as [[[[hb ob] db] rb]|]; try done.
  destruct Hsame as [<- <-]. destruct ra as [err|].
  { intros [= _ _ <- <-] [= _ _ <- <-]. done. }
  destruct (jsontext.ReadToken da) as [dec3 [err|tok3]];
    intros [= _ _ <- <-] [= _ _ <- <-]; done.
Qed.

(** X13. [UnmarshalJSONFrom] starts from an emptied container: whatever two
    containers held before, decoding the same input leaves both with the
    same entries, the same error or success, and the decoder in the same
    state. *)
Theorem UnmarshalJSONFrom_replaces_contents h1 o1 h2 o2 dec :
  wfObject h1 o1 -> wfObject h2 o2 ->
  exists h1' o1' h2' o2' dec' r,
    UnmarshalJSONFrom h1 o1 dec = Some (h1', o1', dec', r) /\
    UnmarshalJSONFrom h2 o2 dec = Some (h2', o2', dec', r) /\
    contents h1' o1' = contents h2' o2'.
Proof.
  intros Hwf1 Hwf2.
  destruct (UnmarshalJSONFrom_total h1 o1 dec) as [[[[h1' o1'] d1] r1] Hr1].
  destruct (UnmarshalJSONFrom_total h2 o2 dec) as [[[[h2' o2'] d2] r2] Hr2].
  destruct (UnmarshalJSONFrom_reads _ _ _ _ _ _ _ _ _ _ _ _ _ Hr1 Hr2) as [<- <-].
  exists h1', o1', h2', o2', d1, r1. split; [done|]. split; [done|].
  destruct (UnmarshalJSONFrom_run h1 o1 dec)
    as [[Hin Ha]|[(t & rest & Hin & Hk & Ha)
       |(toks & es & stop & r & ha & oa & da & Hin & Hm & Hh & Ha & _ & Hst)]].
  - rewrite Ha in Hr1. injection Hr1 as <- <- _ _.
    unfold UnmarshalJSONFrom, jsontext.ReadToken in Hr2. rewrite Hin in Hr2.
    injection Hr2 as <- <- _ _. by rewrite !contents_reset.
  - rewrite Ha in Hr1. injection Hr1 as <- <- _ _.
    unfold UnmarshalJSONFrom, jsontext.ReadToken in Hr2. rewrite Hin in Hr2.
    rewrite (proj2 (Ascii.eqb_neq _ _) Hk) in Hr2. simpl in Hr2.
    injection Hr2 as <- <- _ _. by rewrite !contents_reset.
  - rewrite Ha in Hr1. injection Hr1 as <- <- _ _.
    destruct (UnmarshalJSONFrom_members h2 o2 dec toks es stop r Hin Hm Hh)
      as (hb & ob & db & Hb & _ & Hst2).
    rewrite Hb in Hr2. injection Hr2 as <- <- _ _.
    destruct (Hst Hwf1) as [_ ->]. by destruct (Hst2 Hwf2) as [_ ->].
Qed.

(** X14. A failed [UnmarshalJSONFrom] does not restore the container.  When
    the input does not start with an opening brace the container is left
    empty; otherwise it is left with the members read before the failure,
    in source order. *)
Theorem UnmarshalJSONFrom_failure_partial h o dec h' o' dec' err :
  wfObject h o ->
  UnmarshalJSONFrom h o dec = Some (h', o', dec', Some err) ->
  wfObject h' o' /\
  ((contents h' o' = [] /\ forall toks, jsontext.input dec <> jsontext.BeginObject :: toks) \/
   (exists toks stop r,
      jsontext.input dec = jsontext.BeginObject :: toks /\
      members (jsontext.advance 1 dec) (contents h' o') stop /\
      halts stop r /\ closing stop r = Some err)).
Proof.
  intros Hwf Hrun.
  destruct (UnmarshalJSONFrom_run h o dec)
    as [[Hin Ha]|[(t & rest & Hin & Hk & Ha)
       |(toks & es & stop & r & ha & oa & da & Hin & Hm & Hh & Ha & _ & Hst)]];
    rewrite Ha in Hrun.
  - injection Hrun as <- <- _ _. split; [by apply wfObject_reset|].
    left. split; [apply contents_reset|]. intros toks. by rewrite Hin.
  - injection Hrun as <- <- _ _. split; [by apply wfObject_reset|].
    left. split; [apply contents_reset|]. intros toks. rewrite Hin.
    intros [= -> _]. by apply Hk.
  - injection Hrun as <- <- _ Hc. destruct (Hst Hwf) as [Hwf' Hes].
    split; [done|]. right. exists toks, stop, r. by rewrite Hes.
Qed.

(** *** Writing a container and reading it back *)

Lemma MarshalJSONTo_ok h o enc enc' :
  MarshalJSONTo h o enc = (enc', None) ->
  enc' = jsontext.emit enc (objectTokens (contents h o) enc).
Proof.
  unfold MarshalJSONTo, objectTokens.
  destruct (WriteToken_cases enc jsontext.BeginObject) as [->|[err ->]]; [|done].
  set (enc1 := jsontext.emit enc [jsontext.BeginObject]).
  destruct (marshalEntries_spec (contents h o) enc1) as (ts & _ & _ & Hfull).
  destruct (marshalEntries (contents h o) enc1) as [enc2 [err|]]; [done|].
  simpl in Hfull. rewrite (Hfull eq_refl). intros Hw.
  apply WriteToken_ok in Hw as ->. unfold enc1. by rewrite !emit_emit.
Qed.

Lemma input_advance n dec :
  jsontext.input (jsontext.advance n dec) = drop n (jsontext.input dec).
Proof. done. Qed.

Lemma members_of_chunks es : forall enc dec rest,
  entriesUnmarshalBack es enc ->
  jsontext.input dec = concat (memberChunks es enc) ++ rest ->
  exists stop, members dec es stop /\ jsontext.input stop = rest.
Proof.
  induction es as [|[key value] es IH]; intros enc dec rest Hback Hin; simpl in *.
  - exists dec. split; [constructor | done].
  - destruct Hback as [Hv Hrest].
    set (vt := valueTokens value (jsontext.emit enc [jsontext.String key])) in *.
    rewrite <- app_assoc in Hin.
    assert (jsontext.input (jsontext.advance 1 dec)
            = vt ++ (concat (memberChunks es
                       (jsontext.emit enc (jsontext.String key :: vt))) ++ rest)) as Hin1.
    { unfold jsontext.advance. simpl. by rewrite Hin. }
    pose proof (Hv _ _ Hin1) as Hdec.
    destruct (IH (jsontext.emit enc (jsontext.String key :: vt))
                 (jsontext.advance (length vt) (jsontext.advance 1 dec)) rest Hrest)
      as (stop & Hm & Hs).
    { by rewrite input_advance, Hin1, drop_app_length. }
    exists stop. split; [|done].
    by apply (members_cons dec key _ value (length vt) es stop Hin Hdec).
Qed.

(** the specified token sequence of an object is decoded into its
    entries *)
Lemma objectTokens_decoded es enc h2 o2 dec rest :
  wfObject h2 o2 ->
  entriesUnmarshalBack es (jsontext.emit enc [jsontext.BeginObject]) ->
  jsontext.input dec = objectTokens es enc ++ rest ->
  exists h' o' dec',
    UnmarshalJSONFrom h2 o2 dec = Some (h', o', dec', None) /\
    contents h' o' = es /\
    jsontext.input dec' = rest.
Proof.
  intros Hwf Hback Hin.
  unfold objectTokens in Hin. simpl in Hin. rewrite <- app_assoc in Hin.
  destruct (members_of_chunks es
              (jsontext.emit enc [jsontext.BeginObject]) (jsontext.advance 1 dec)
              (jsontext.EndObject :: rest) Hback) as (stop & Hm & Hs).
  { unfold jsontext.advance. simpl. by rewrite Hin. }
  assert (halts stop None) as Hh.
  { apply halts_end. unfold jsontext.PeekKind. by rewrite Hs. }
  destruct (UnmarshalJSONFrom_members h2 o2 dec _ _ stop None Hin Hm Hh)
    as (h' & o' & dec' & Hr & Hd & Hst).
  assert (closing stop None = None) as Hc by (simpl; by rewrite Hs).
  rewrite Hc in Hr. exists h', o', dec'. split; [done|].
  split; [by destruct (Hst Hwf)|].
  rewrite (Hd Hc). unfold jsontext.advance. simpl. by rewrite Hs.
Qed.

(** X15. What [MarshalJSONTo] writes, [UnmarshalJSONFrom] reads back: when the
    value of every entry is read back from the tokens its marshaller
    wrote, decoding those tokens into any container gives the entries of
    the written one, keys and values in the same order, and leaves the
    decoder at what followed them. *)
Theorem marshal_then_unmarshal h o enc enc' h2 o2 dec rest :
  wfObject h2 o2 ->
  MarshalJSONTo h o enc = (enc', None) ->
  entriesUnmarshalBack (contents h o) (jsontext.emit enc [jsontext.BeginObject]) ->
  jsontext.input dec
  = drop (length (jsontext.written enc)) (jsontext.written enc') ++ rest ->
  exists h' o' dec',
    UnmarshalJSONFrom h2 o2 dec = Some (h', o', dec', None) /\
    contents h' o' = contents h o /\
    jsontext.input dec' = rest.
Proof.
  intros Hwf Hrun Hback Hin.
  apply MarshalJSONTo_ok in Hrun as ->.
  unfold jsontext.emit in Hin. simpl in Hin. rewrite drop_app_length in Hin.
  by apply (objectTokens_decoded (contents h o) enc h2 o2 dec rest).
Qed.

End DecodeFacts.

(** ** Containers side by side *)

Section IsolationFacts.
Context {V : Type} `{GoValue V} `{GoRuntime}.
Implicit Types (h : gmap loc (list (Entry V))) (o : Object) (es : list (Entry V)).
Implicit Types (dec : jsontext.Decoder) (l : loc).

Lemma decodeEntries_frame fuel : forall h o dec h' o' dec' r,
  decodeEntries fuel h o dec = Some (h', o', dec', r) ->
  forall l, is_Some (h !! l) -> ptr (entries o) <> Some l ->
    h' !! l = h !! l /\ ptr (entries o') <> Some l.
Proof.
  induction fuel as [|fuel IH]; intros h o dec h' o' dec' r Hrun l Hl Hne; [done|].
  rewrite decodeEntries_S in Hrun.
  destruct (Ascii.eqb (jsontext.PeekKind dec) "}").
  { by injection Hrun as <- <- _ _. }
  destruct (jsontext.ReadToken dec) as [dec1 [err|tok]].
  { by injection Hrun as <- <- _ _. }
  destruct (negb (Ascii.eqb (jsontext.TokenKind tok) "034")).
  { by injection Hrun as <- <- _ _. }
  destruct (UnmarshalDecode dec1) as [err|[value n]].
  { by injection Hrun as <- <- _ _. }
  destruct (append_frame zeroEntry growslice_cap h (entries o)
              [mkEntry (jsontext.TokenString tok) value] l Hl Hne) as [Heq Hne1].
  destruct (IH _ _ _ _ _ _ _ Hrun l) as [Heq2 Hne2].
  - unfold s_append. by rewrite Heq.
  - done.
  - split; [|done]. rewrite Heq2. exact Heq.
Qed.

Lemma UnmarshalJSONFrom_frame h o dec h' o' dec' r :
  UnmarshalJSONFrom h o dec = Some (h', o', dec', r) ->
  forall l, is_Some (h !! l) -> ptr (entries o) <> Some l ->
    h' !! l = h !! l /\ ptr (entries o') <> Some l.
Proof.
  unfold UnmarshalJSONFrom. intros Hrun l Hl Hne.
  destruct (jsontext.ReadToken dec) as [dec1 [err|tok]].
  { by injection Hrun as <- <- _ _. }
  destruct (negb (Ascii.eqb (jsontext.TokenKind tok) "{")).
  { by injection Hrun as <- <- _ _. }
  destruct (decodeEntries _ h (resetEntries o) dec1) as [[[[ha oa] da] ra]|] eqn:E;
    [|done].
  pose proof (decodeEntries_frame _ _ _ _ _ _ _ _ E l Hl Hne) as Hfr.
  destruct ra as [err|]; [by injection Hrun as <- <- _ _|].
  destruct (jsontext.ReadToken da) as [dec3 [err|tok3]];
    by injection Hrun as <- <- _ _.
Qed.

(** each public mutating operation leaves the arrays of other containers
    alone and never adopts one of them *)
Lemma step_frame allowed st st' :
  step allowed st st' -> wfObject st.1 st.2 ->
  forall l, is_Some (st.1 !! l) -> ptr (entries st.2) <> Some l ->
    st'.1 !! l = st.1 !! l /\ ptr (entries st'.2) <> Some l.
Proof.
  intros Hstep Hwf l Hl Hne.
  destruct Hstep as [h o key value h' o' Hr|h o key h' o' Hr
                    |h o dec h' o' dec' r Hd Hr|h o h' o' Hr]; simpl in *.
  - destruct (applyMutation_frame h o (MSet key value) Hwf) as (h2 & o2 & Hr2 & _ & Hfr).
    simpl in Hr2. rewrite Hr2 in Hr. injection Hr as <- <-. by apply Hfr.
  - destruct (applyMutation_frame h o (MDelete key) Hwf) as (h2 & o2 & Hr2 & _ & Hfr).
    simpl in Hr2. rewrite Hr2 in Hr. injection Hr as <- <-. by apply Hfr.
  - by apply (UnmarshalJSONFrom_frame h o dec h' o' dec' r).
  - destruct (Clone_spec h o Hwf) as (h2 & cl & Hr2 & _ & _ & _ & Hp & Hfr).
    rewrite Hr2 in Hr. injection Hr as <- <-. split; [by apply Hfr|].
    rewrite Hp. intros [= Heq]. by apply (fresh_ne h l).
Qed.

Lemma steps_frame allowed st st' :
  rtc (step allowed) st st' -> wfObject st.1 st.2 ->
  wfObject st'.1 st'.2 /\
  forall l, is_Some (st.1 !! l) -> ptr (entries st.2) <> Some l ->
    st'.1 !! l = st.1 !! l /\ ptr (entries st'.2) <> Some l.
Proof.
  intros Hsteps Hwf. revert st' Hsteps.
  apply (rtc_ind_r (fun st' =>
           wfObject st'.1 st'.2 /\
           forall l, is_Some (st.1 !! l) -> ptr (entries st.2) <> Some l ->
             st'.1 !! l = st.1 !! l /\ ptr (entries st'.2) <> Some l)).
  - by split.
  - intros st1 st2 _ Hstep [Hwf1 IH].
    split; [by apply (step_keeps_wf allowed st1 st2)|].
    intros l Hl Hne. destruct (IH l Hl Hne) as [Heq Hne1].
    destruct (step_frame allowed st1 st2 Hstep Hwf1 l) as [Heq2 Hne2];
      [by rewrite Heq | done |].
    split; [congruence | done].
Qed.

(** X16. Two containers on different arrays do not interfere: whatever
    sequence of [Set], [Delete], [UnmarshalJSONFrom] and [Clone] is
    applied to one of them, the entries of the other stay as they were,
    and the first never comes to use the other's array. *)
Theorem instances_independent allowed h o other st' :
  wfObject h o -> wfObject h other ->
  (forall l, ptr (entries other) = Some l -> ptr (entries o) <> Some l) ->
  rtc (step allowed) (h, o) st' ->
  contents st'.1 other = contents h other /\
  wfObject st'.1 other /\
  (forall l, ptr (entries other) = Some l -> ptr (entries st'.2) <> Some l).
Proof.
  intros Hwf Hwf2 Hne Hsteps.
  destruct (steps_frame allowed (h, o) st' Hsteps Hwf) as [_ Hfr]. simpl in Hfr.
  assert (forall l, ptr (entries other) = Some l ->
            st'.1 !! l = h !! l /\ ptr (entries st'.2) <> Some l) as Hkeep.
  { intros l Hl. apply Hfr; [by apply (wfObject_alloc h other) | by apply Hne]. }
  split; [|split].
  - apply contents_ext. intros l Hl. by apply Hkeep.
  - apply (wfObject_ext h); [|done]. intros l Hl. by apply Hkeep.
  - intros l Hl. by apply Hkeep.
Qed.

(** X17. A clone is out of the original's reach as well: whatever sequence of
    [Set], [Delete], [UnmarshalJSONFrom] and [Clone] is applied to the
    original after the copy, the clone keeps the entries the original had
    when it was cloned. *)
Theorem Clone_survives_original allowed h o :
  wfObject h o ->
  exists h1 cl, Clone h o = Done (h1, cl) /\
    forall st', rtc (step allowed) (h1, o) st' ->
      contents st'.1 cl = contents h o /\ wfObject st'.1 cl.
Proof.
  intros Hwf.
  destruct (Clone_spec h o Hwf) as (h1 & cl & Hr & Hc & Hwfc & _ & Hp & Hfr).
  exists h1, cl. split; [done|]. intros st' Hsteps.
  assert (forall l, ptr (entries o) = Some l -> h1 !! l = h !! l) as Hsame.
  { intros l Hl. apply Hfr. by apply (wfObject_alloc h o). }
  assert (wfObject h1 o) as Hwf1 by (by apply (wfObject_ext h)).
  destruct (steps_frame allowed (h1, o) st' Hsteps Hwf1) as [_ Hfr2]. simpl in Hfr2.
  destruct (Hfr2 (fresh (dom h))) as [Heq _].
  - by apply (wfObject_alloc h1 cl).
  - intros Hl. apply (fresh_ne h (fresh (dom h))); [|done].
    by apply (wfObject_alloc h o).
  - split.
    + rewrite <- Hc. apply contents_ext. intros l Hl. congruence.
    + apply (wfObject_ext h1); [|done]. intros l Hl. congruence.
Qed.

(** *** No operation panics on a container built through the package *)

Lemma Entries_Done h o : wfObject h o -> exists r, Entries h o = Done r.
Proof.
  intros Hwf. unfold Entries, s_make.
  destruct (make_exact zeroEntry h (len (entries o))) as (-> & _). simpl. eauto.
Qed.

(** X18. On a container reached from [NewObject] by the public operations no
    operation panics: the index expressions of [Set] and [Get], the slice
    expressions of [Delete], the assignments of [Keys] and [Values] and
    the reads of [ForEach] stay within bounds. *)
Theorem reachable_never_panics allowed h o :
  reachable allowed (h, o) ->
  (forall key value, exists p, Set_ h o key value = Done p) /\
  (forall key, exists p, Delete h o key = Done p) /\
  (forall key, exists r, Get h o key = Done r) /\
  (forall hk, exists r, Keys h o hk = Done r) /\
  (forall hv, exists r, Values h o hv = Done r) /\
  (exists r, Entries h o = Done r) /\
  (exists r, Clone h o = Done r) /\
  (forall (St : Type) (g : string -> V -> St -> St) s,
     exists r, ForEach h o (onState g) s = Done r).
Proof.
  intros Hreach. pose proof (reachable_wf allowed (h, o) Hreach) as Hwf. simpl in Hwf.
  repeat split.
  - intros key value.
    destruct (applyMutation_frame h o (MSet key value) Hwf) as (h' & o' & Hr & _).
    by exists (h', o').
  - intros key.
    destruct (applyMutation_frame h o (MDelete key) Hwf) as (h' & o' & Hr & _).
    by exists (h', o').
  - intros key. rewrite Get_getEntry. eauto.
  - intros hk.
    destruct (project_fresh EmptyString Key h o hk Hwf) as (hk' & ks & Hr & _).
    by exists (hk', ks).
  - intros hv.
    destruct (project_fresh zeroValue Value h o hv Hwf) as (hv' & vs & Hr & _).
    by exists (hv', vs).
  - by apply Entries_Done.
  - destruct (Clone_spec h o Hwf) as (h1 & cl & Hr & _). by exists (h1, cl).
  - intros St g s. destruct (ForEach_onState h o g s Hwf) as (st' & Hr & _). eauto.
Qed.

End IsolationFacts.

(** ** [FromJSON] *)

Section FromJSONFacts.
Context {V : Type} `{GoValue V} `{GoRuntime} `{JsonText}.
Implicit Types (h : gmap loc (list (Entry V))) (o : Object).

(** X19. [FromJSON] neither panics nor runs forever, and returns either a
    container or an error, never both.  The error is the one
    [UnmarshalJSON] reports on a new container, wrapped.  The container
    holds the members of the first object of the input, in source order;
    what follows the closing brace is not looked at. *)
Theorem FromJSON_result h (data : string) :
  exists h' r, FromJSON h data = Done (Some (h', r)) /\
    match r with
    | inr o' =>
        wfObject h' o' /\
        exists toks stop rest,
          jsontext.input (NewDecoder data) = jsontext.BeginObject :: toks /\
          members (jsontext.advance 1 (NewDecoder data)) (contents h' o') stop /\
          jsontext.input stop = jsontext.EndObject :: rest
    | inl (FailedToUnmarshal err) =>
        exists h0 o0 o' dec',
          NewObject h [] = Done (h0, o0) /\
          UnmarshalJSON h0 o0 data = Some (h', o', dec', Some err)
    end.
Proof.
  assert (exists h0 o0, NewObject h [] = Done (h0, o0)) as (h0 & o0 & Hnew).
  { unfold NewObject. rewrite make_bounded_Done by lia. simpl. eauto. }
  destruct (NewObject_inv h [] h0 o0 Hnew) as [Hwf0 _].
  destruct (UnmarshalJSONFrom_total h0 o0 (NewDecoder data))
    as [[[[h' o'] dec'] r] Hr].
  unfold FromJSON. rewrite Hnew. simpl.
  unfold UnmarshalJSON. rewrite Hr. destruct r as [err|].
  - exists h', (inl (FailedToUnmarshal err)). split; [done|].
    exists h0, o0, o', dec'. done.
  - exists h', (inr o'). split; [done|].
    destruct (UnmarshalJSONFrom_success h0 o0 _ h' o' dec' Hwf0 Hr)
      as (toks & stop & rest & Hin & Hm & Hs & _ & Hwf').
    split; [done|]. by exists toks, stop, rest.
Qed.

End FromJSONFacts.

Section ByteRoundTrip.
Context {V : Type} `{GoValue V} `{GoRuntime} `{JsonText}.
Implicit Types (h : gmap loc (list (Entry V))) (o : Object).

(** X20. [FromJSON] of the bytes [MarshalJSON] returns gives a container with
    the same entries in the same order, provided the tokenizer reads those
    bytes back into the tokens that were written and every value is read
    back from its own tokens. *)
Theorem FromJSON_of_MarshalJSON h o (out : string) h2 :
  MarshalJSON h o = inr out ->
  entriesUnmarshalBack (contents h o) (jsontext.emit NewEncoder [jsontext.BeginObject]) ->
  jsontext.input (NewDecoder out)
  = jsontext.written (MarshalJSONTo h o NewEncoder).1 ->
  exists h' o', FromJSON h2 out = Done (Some (h', inr o')) /\
    contents h' o' = contents h o.
Proof.
  intros Hout Hback Hin. unfold MarshalJSON in Hout.
  destruct (MarshalJSONTo h o NewEncoder) as [enc' [err|]] eqn:Hrun; [done|].
  simpl in Hin.
  assert (exists h0 o0, NewObject h2 [] = Done (h0, o0)) as (h0 & o0 & Hnew).
  { unfold NewObject. rewrite make_bounded_Done by lia. simpl. eauto. }
  destruct (NewObject_inv h2 [] h0 o0 Hnew) as [Hwf0 _].
  apply MarshalJSONTo_ok in Hrun as ->.
  destruct (objectTokens_decoded (contents h o) NewEncoder h0 o0 (NewDecoder out) []
              Hwf0 Hback) as (h' & o' & dec' & Hr & Hc & _).
  { rewrite Hin. simpl. by rewrite app_nil_r. }
  exists h', o'. split; [|done].
  unfold FromJSON. rewrite Hnew. simpl. unfold UnmarshalJSON. by rewrite Hr.
Qed.

End ByteRoundTrip.

(** ** The further properties on concrete inputs *)

Module Further.
Import Fragment Samples.

Lemma Get_after_Set_witness :
  exists h' o', Set_ abc.1 abc.2 "b" (AString "y") = Done (h', o') /\
    Get h' o' "b" = Done (AString "y", true) /\
    Get h' o' "a" = Get abc.1 abc.2 "a".
Proof.
  destruct (Get_after_Set abc.1 abc.2 "b" (AString "y")) as (h' & o' & Hr & Hg & _ & Ho).
  { vm_compute. split; [lia | reflexivity]. }
  exists h', o'. split; [exact Hr|]. split; [exact Hg|].
  apply (Ho "a"). discriminate.
Defined.

Lemma Set_twice_witness :
  exists h1 o1 h2 h3 o3,
    Set_ start.1 start.2 "k" ANil = Done (h1, o1) /\
    Set_ h1 o1 "k" (ABool true) = Done (h2, o1) /\
    Set_ start.1 start.2 "k" (ABool true) = Done (h3, o3) /\
    contents h2 o1 = contents h3 o3.
Proof.
  destruct (Set_twice start.1 start.2 "k" ANil (ABool true))
    as (h1 & o1 & h2 & h3 & o3 & H1 & H2 & H3 & Hc & _).
  { vm_compute. split; [lia | reflexivity]. }
  exists h1, o1, h2, h3, o3. split; [exact H1|]. split; [exact H2|].
  split; [exact H3 | exact Hc].
Defined.

Lemma Delete_then_lookup_witness :
  exists h' o', Delete abc.1 abc.2 "b" = Done (h', o') /\
    Get h' o' "c" = Get abc.1 abc.2 "c".
Proof.
  destruct (Delete_then_lookup abc.1 abc.2 "b") as (h' & o' & Hr & Ho & _).
  { vm_compute. split; [lia | reflexivity]. }
  exists h', o'. split; [exact Hr|]. apply (Ho "c"). discriminate.
Defined.

Lemma Set_sequence_order_witness :
  exists h' o', setEach start.1 start.2 assignments = Done (h', o') /\
    keysOf (contents h' o') = firstKeys assignments.*1.
Proof.
  destruct (Set_sequence_order start.1 start.2 assignments) as (h' & o' & Hr & Hk & _).
  { vm_compute. split; [lia | reflexivity]. }
  { vm_compute. reflexivity. }
  exists h', o'. split; [exact Hr | exact Hk].
Defined.


Lemma FromMap_any_order_witness :
  exists h' o', FromMap ∅ colours coloursOrder = Done (h', o') /\
    contents h' o' = toEntry <$> coloursOrder /\ ToMap h' o' = colours.
Proof.
  destruct (FromMap_any_order ∅ colours coloursOrder) as [Hfits _].
  { assert (map_to_list colours
            = [("green", AString "0f0"); ("red", AString "f00"); ("blue", ANil)]) as ->
      by (vm_compute; reflexivity).
    apply perm_skip, perm_swap. }
  destruct Hfits as (h' & o' & Hr & Hc & _ & Hm & _).
  { vm_compute. discriminate. }
  exists h', o'. split; [exact Hr|]. split; [exact Hc | exact Hm].
Defined.

Lemma ForEach_rule_witness :
  exists st', ForEach abc.1 abc.2 (onState (fun _ _ (n : nat) => S n)) 0%nat = Done st' /\
    st' = (abc.1, abc.2, len (entries abc.2)).
Proof.
  apply (ForEach_rule abc.1 abc.2 (onState (fun _ _ (n : nat) => S n)) 0%nat
           (fun i st => st = (abc.1, abc.2, i))).
  - reflexivity.
  - intros i st ->. vm_compute. split; [lia | reflexivity].
  - intros i st e -> _. eexists. split; reflexivity.
Defined.

Lemma ForEach_visits_in_order_witness :
  exists hk' ks hv' vs,
    Keys abc.1 abc.2 ∅ = Done (hk', ks) /\ Values abc.1 abc.2 ∅ = Done (hv', vs) /\
    ForEach abc.1 abc.2 (onState (fun key _ (seen : list string) => seen ++ [key])) []
    = Done (abc.1, abc.2,
            foldl (fun acc kv => acc ++ [kv.1]) []
                  (zip (Slice.elems hk' ks) (Slice.elems hv' vs))).
Proof.
  destruct (ForEach_visits_in_order abc.1 abc.2) with (hk := ∅ : gmap loc (list string))
    (hv := ∅ : gmap loc (list any)) as (hk' & ks & hv' & vs & Hk & Hv & _ & Hf).
  { vm_compute. split; [lia | reflexivity]. }
  exists hk', ks, hv', vs. split; [exact Hk|]. split; [exact Hv|].
  apply (Hf (list string) (fun key _ seen => seen ++ [key]) []).
Defined.

Lemma Delete_keeps_vacated_cell_witness :
  exists h' o', Delete abc.1 abc.2 "a" = Done (h', o') /\
    S (len (entries o')) = len (entries abc.2) /\
    Slice.backing h' (entries o') !! len (entries o')
    = contents abc.1 abc.2 !! len (entries o').
Proof.
  apply (Delete_keeps_vacated_cell abc.1 abc.2 "a" 0).
  - vm_compute. split; [lia | reflexivity].
  - apply Concrete.keyAt_findKeyIndex. vm_compute. reflexivity.
Defined.

Lemma UnmarshalJSONFrom_replaces_contents_witness :
  exists h1' o1' h2' o2' dec' r,
    UnmarshalJSONFrom start.1 start.2 twiceA = Some (h1', o1', dec', r) /\
    UnmarshalJSONFrom abc.1 abc.2 twiceA = Some (h2', o2', dec', r) /\
    contents h1' o1' = contents h2' o2'.
Proof.
  apply (UnmarshalJSONFrom_replaces_contents start.1 start.2 abc.1 abc.2 twiceA).
  - vm_compute. split; [lia | reflexivity].
  - vm_compute. split; [lia | reflexivity].
Defined.

Lemma UnmarshalJSONFrom_failure_partial_witness :
  wfObject (decoded abc cutShort).1 (decoded abc cutShort).2 /\
  ((contents (decoded abc cutShort).1 (decoded abc cutShort).2 = [] /\
    forall toks, jsontext.input cutShort <> jsontext.BeginObject :: toks) \/
   (exists toks stop r,
      jsontext.input cutShort = jsontext.BeginObject :: toks /\
      members (jsontext.advance 1 cutShort)
              (contents (decoded abc cutShort).1 (decoded abc cutShort).2) stop /\
      halts stop r /\
      closing stop r = Some (ErrExpectedStringKey "0"%char))).
Proof.
  apply (UnmarshalJSONFrom_failure_partial abc.1 abc.2 cutShort
           (decoded abc cutShort).1 (decoded abc cutShort).2
           (jsontext.mkDecoder [] "EOF" jsontext.invalidKind)
           (ErrExpectedStringKey "0"%char)).
  - vm_compute. split; [lia | reflexivity].
  - vm_compute. reflexivity.
Defined.

Lemma marshal_then_unmarshal_witness :
  exists h' o' dec',
    UnmarshalJSONFrom start.1 start.2 (lenientDecoder (jsontext.written abcWritten))
    = Some (h', o', dec', None) /\
    contents h' o' = contents abc.1 abc.2 /\ jsontext.input dec' = [].
Proof.
  apply (marshal_then_unmarshal abc.1 abc.2 lenientEncoder abcWritten
           start.1 start.2 (lenientDecoder (jsontext.written abcWritten)) []).
  - vm_compute. split; [lia | reflexivity].
  - vm_compute. reflexivity.
  - assert (contents abc.1 abc.2
            = [mkEntry "a" (AString "x"); mkEntry "b" ANil; mkEntry "c" (ABool true)]) as ->
      by (vm_compute; reflexivity).
    simpl. repeat split; intros dec rest Hin;
      unfold UnmarshalDecode; simpl; unfold unmarshalAny; rewrite Hin; reflexivity.
  - vm_compute. reflexivity.
Defined.

Lemma instances_independent_witness :
  contents (after (cloned.1, abc.2) [MSet "z" ANil]).1 cloned.2
  = contents cloned.1 cloned.2 /\
  wfObject (after (cloned.1, abc.2) [MSet "z" ANil]).1 cloned.2 /\
  (forall l, ptr (entries cloned.2) = Some l ->
     ptr (entries (after (cloned.1, abc.2) [MSet "z" ANil]).2) <> Some l).
Proof.
  apply (instances_independent (fun _ => True) cloned.1 abc.2 cloned.2
           ((after (cloned.1, abc.2) [MSet "z" ANil]).1,
            (after (cloned.1, abc.2) [MSet "z" ANil]).2)).
  - vm_compute. split; [lia | reflexivity].
  - vm_compute. split; [lia | reflexivity].
  - intros l Hl Ho. vm_compute in Hl, Ho. congruence.
  - apply rtc_once. apply (step_Set _ _ _ "z" ANil). vm_compute. reflexivity.
Defined.

Lemma Clone_survives_original_witness :
  exists h1 cl, Clone abc.1 abc.2 = Done (h1, cl) /\
    forall st', rtc (publicStep (fun _ => True)) (h1, abc.2) st' ->
      contents st'.1 cl = contents abc.1 abc.2 /\ wfObject st'.1 cl.
Proof.
  apply (Clone_survives_original (fun _ => True) abc.1 abc.2).
  vm_compute. split; [lia | reflexivity].
Defined.

Lemma reachable_never_panics_witness :
  (exists p, Set_ abc.1 abc.2 "b" (AString "y") = Done p) /\
  (exists p, Set_ abc.1 abc.2 "d" ANil = Done p) /\
  (exists p, Delete abc.1 abc.2 "b" = Done p) /\
  (exists r, Get abc.1 abc.2 "c" = Done r) /\
  (exists r, Keys abc.1 abc.2 ∅ = Done r) /\
  (exists r, Values abc.1 abc.2 ∅ = Done r) /\
  (exists r, Entries abc.1 abc.2 = Done r) /\
  (exists r, Clone abc.1 abc.2 = Done r) /\
  (exists r, ForEach abc.1 abc.2 (onState (fun _ _ (n : nat) => S n)) 0%nat = Done r).
Proof.
  destruct (reachable_never_panics (fun _ => True) abc.1 abc.2)
    as (Hset & Hdel & Hget & Hkeys & Hvalues & Hentries & Hclone & Heach).
  { replace (abc.1, abc.2) with abc by (vm_compute; reflexivity).
    apply (Concrete.reachable_mutations _ _ start).
    - vm_compute. split; [lia | reflexivity].
    - eapply (reachable_new _ ∅ []). vm_compute. reflexivity. }
  split; [apply Hset|]. split; [apply Hset|]. split; [apply Hdel|].
  split; [apply Hget|]. split; [apply Hkeys|]. split; [apply Hvalues|].
  split; [exact Hentries|]. split; [exact Hclone | apply Heach].
Defined.

Lemma FromJSON_of_MarshalJSON_witness :
  exists h' o', FromJSON (V := any) ∅ abcText = Done (Some (h', inr o')) /\
    contents h' o' = contents abc.1 abc.2.
Proof.
  apply (FromJSON_of_MarshalJSON abc.1 abc.2 abcText ∅).
  - vm_compute. reflexivity.
  - assert (contents abc.1 abc.2
            = [mkEntry "a" (AString "x"); mkEntry "b" ANil; mkEntry "c" (ABool true)]) as ->
      by (vm_compute; reflexivity).
    repeat split; intros dec rest Hin;
      match goal with
      | |- UnmarshalDecode _ = inr (_, length ?toks) =>
          let t := eval vm_compute in toks in change toks with t in Hin |- *
      end;
      unfold UnmarshalDecode; simpl; unfold unmarshalAny; rewrite Hin; reflexivity.
  - vm_compute. reflexivity.
Defined.

(** a callback that deletes the key it is handed: the rounds and the
    cells read are still those of the three entries at the call, so the
    third round reads the cell the second deletion vacated *)
Example ForEach_while_deleting :
  exists st', ForEach abc.1 abc.2 deleting [] = Done st' /\
    st'.2 = ["a"; "c"; "c"] /\
    contents st'.1.1 st'.1.2 = [mkEntry "b" ANil].
Proof. eexists. split; [vm_compute; reflexivity|]. split; vm_compute; reflexivity. Qed.

End Further.
